(** * Standard-cell legalizer: a shallow embedding of [standardcelllegalization.py]

    The program snaps axis-aligned rectangular cells to a manufacturing grid
    and then removes overlaps greedily, one cell at a time, inside a block
    boundary.

    Modelling decisions, shared by every definition below.

    - Coordinates.  The source works on Shapely geometries whose coordinates
      are IEEE doubles.  All the fixture data, the grid height and the
      reference extent are integers; on integers of that magnitude sums,
      differences and products with the grid size are exact in double
      precision, and [round] of the double quotient by the grid size is the
      round-half-to-even of the exact quotient.  Coordinates are therefore
      modelled as [Z].
    - Cells.  Every cell is a rectangle built with the vertex order
      lower-left, lower-right, upper-right, upper-left, and
      [affinity.translate] keeps that order.  On such polygons Shapely's
      structural equality [==] coincides with equality of the bounds, so a
      cell is modelled by its bounds [(minx, miny, maxx, maxy)].
    - Costs.  The displacement costs are doubles that may be [float("inf")];
      they are modelled by the type [Cost].
    - The [while] loop of [resolve_overlaps] is modelled with fuel; the
      development proves that the fuel never runs out once it exceeds an
      explicit bound. *)

From Stdlib Require Import ZArith Lia List Bool.
From stdpp Require Import base list gmap.
Import ListNotations.

Local Open Scope Z_scope.

(** ** Geometry *)

(** A cell, given by [polygon.bounds]. *)
Record Cell : Type := mkCell { minx : Z; miny : Z; maxx : Z; maxy : Z }.

#[global] Instance Cell_eq_dec : EqDecision Cell.
Proof. solve_decision. Defined.

(** [other != cell] on Shapely geometries, for cells in the canonical vertex
    order: inequality of the bounds. *)
Definition cell_neqb (a b : Cell) : bool := negb (bool_decide (a = b)).

(** [affinity.translate(polygon, dx, dy)]. *)
Definition translate (c : Cell) (dx dy : Z) : Cell :=
  mkCell (minx c + dx) (miny c + dy) (maxx c + dx) (maxy c + dy).

(** [a.intersects(b)]: the two closed rectangles share a point; touching
    edges or corners count. *)
Definition intersects (a b : Cell) : bool :=
  (minx a <=? maxx b) && (minx b <=? maxx a) &&
  (miny a <=? maxy b) && (miny b <=? maxy a).

(** A boundary polygon is used by the program only through
    [block_boundary.contains(cell)]; it is modelled by that predicate. *)
Record Boundary : Type := mkBoundary { contains : Cell -> bool }.

(** The polygon [BLOCK_COORDS]: the box [0,1000] x [0,2000] without the strip
    [0,100] x [1000,2000] and without the notch [400,800] x [1500,2000].  A
    rectangle of positive area lies in it when it lies in the box and its
    interior meets neither removed part. *)
Definition block_contains (c : Cell) : bool :=
  (0 <=? minx c) && (maxx c <=? 1000) && (0 <=? miny c) && (maxy c <=? 2000) &&
  (minx c <? maxx c) && (miny c <? maxy c) &&
  negb ((minx c <? 100) && (1000 <? maxy c)) &&
  negb ((minx c <? 800) && (400 <? maxx c) && (1500 <? maxy c)).

Definition block_boundary : Boundary := mkBoundary block_contains.

Definition GRID_HEIGHT : Z := 20.

(** ** Errors *)

(** [ZeroDivisionError] is what [snap_to_grid] raises on a zero grid size;
    [OutOfFuel] marks a [while] loop that has not finished within the fuel
    it was given. *)
Inductive exn : Type := ZeroDivisionError | OutOfFuel.

Inductive result (A : Type) : Type :=
| Ok (a : A)
| Err (e : exn).
Arguments Ok {A} a.
Arguments Err {A} e.

Definition bind {A B : Type} (m : result A) (f : A -> result B) : result B :=
  match m with
  | Ok a => f a
  | Err e => Err e
  end.

Notation "x <- m ;; k" := (bind m (fun x => k))
  (at level 100, m at next level, right associativity).

Fixpoint mapM {A B : Type} (f : A -> result B) (l : list A) : result (list B) :=
  match l with
  | [] => Ok []
  | a :: l' => b <- f a ;; bs <- mapM f l' ;; Ok (b :: bs)
  end.

(** ** Grid snapper *)

(** Round half to even of the exact quotient [a / b], for [0 < b]. *)
Definition round_half_even (a b : Z) : Z :=
  let k := a / b in
  let r := a mod b in
  if 2 * r <? b then k
  else if b <? 2 * r then k + 1
  else if Z.even k then k else k + 1.

(** Python's [round(a / b)]: the quotient is a double, [round] rounds half to
    even.  A negative divisor is normalised first; a zero divisor raises. *)
Definition py_round_div (a b : Z) : result Z :=
  if b =? 0 then Err ZeroDivisionError
  else if b <? 0 then Ok (round_half_even (- a) (- b))
  else Ok (round_half_even a b).

Definition snap_to_grid (polygon : Cell) (grid_size : Z) : result Cell :=
  rx <- py_round_div (minx polygon) grid_size ;;
  let dx := rx * grid_size - minx polygon in
  ry <- py_round_div (miny polygon) grid_size ;;
  let dy := ry * grid_size - miny polygon in
  Ok (translate polygon dx dy).

(** ** Predicates of the engine *)

Definition is_inside_block (cell : Cell) (block_boundary : Boundary) : bool :=
  contains block_boundary cell.

Definition has_overlap (cell : Cell) (cells : list Cell) : bool :=
  existsb (fun other => cell_neqb other cell && intersects cell other) cells.

Definition overlap_with_boundary (cell : Cell) (block_boundary : Boundary) : bool :=
  negb (contains block_boundary cell).

(** ** Displacement calculator *)

Inductive Direction : Type := Left | Right | Up | Down.

#[global] Instance Direction_eq_dec : EqDecision Direction.
Proof. solve_decision. Defined.

(** A double that is either finite or [float("inf")]. *)
Inductive Cost : Type := Fin (z : Z) | Inf.

#[global] Instance Cost_eq_dec : EqDecision Cost.
Proof. solve_decision. Defined.

(** [min(c, z)] for a finite [z]. *)
Definition cost_min (c : Cost) (z : Z) : Cost :=
  match c with
  | Inf => Fin z
  | Fin v => Fin (Z.min v z)
  end.

(** [a < b] on costs. *)
Definition cost_ltb (a b : Cost) : bool :=
  match a, b with
  | Fin x, Fin y => x <? y
  | Fin _, Inf => true
  | Inf, _ => false
  end.

(** The dictionary [directions]; its keys were inserted in the order
    left, right, up, down. *)
Record Directions : Type :=
  mkDirections { d_left : Cost; d_right : Cost; d_up : Cost; d_down : Cost }.

Definition get (d : Directions) (k : Direction) : Cost :=
  match k with
  | Left => d_left d
  | Right => d_right d
  | Up => d_up d
  | Down => d_down d
  end.

(** One turn of the loop over [cells]. *)
Definition tighten (cell : Cell) (grid_size : Z) (directions : Directions)
    (other : Cell) : Directions :=
  if cell_neqb other cell && intersects cell other then
    mkDirections
      (cost_min (d_left directions) (maxx cell - minx other + grid_size))
      (cost_min (d_right directions) (maxx other - minx cell + grid_size))
      (cost_min (d_up directions) (maxy other - miny cell + grid_size))
      (cost_min (d_down directions) (maxy cell - miny other + grid_size))
  else directions.

(** [if crosses(v): directions[k] = inf], where [crosses] is the test of the
    source on a finite value [v]; on [inf] the test of the source is true
    and the entry stays [inf]. *)
Definition invalidate (c : Cost) (crosses : Z -> bool) : Cost :=
  match c with
  | Inf => Inf
  | Fin v => if crosses v then Inf else Fin v
  end.

Definition clip_to_extent (cell : Cell) (directions : Directions) : Directions :=
  mkDirections
    (invalidate (d_left directions) (fun v => minx cell - v <? 0))
    (invalidate (d_right directions) (fun v => 1000 <? maxx cell + v))
    (invalidate (d_up directions) (fun v => 2000 <? maxy cell + v))
    (invalidate (d_down directions) (fun v => miny cell - v <? 0)).

(** [min(directions, key=directions.get)]: the keys are visited in insertion
    order and a key replaces the best one only when its value is strictly
    smaller. *)
Definition min_key (directions : Directions) : Direction :=
  fold_left
    (fun best k => if cost_ltb (get directions k) (get directions best) then k else best)
    [Right; Up; Down] Left.

Definition all_inf : Directions := mkDirections Inf Inf Inf Inf.

Definition compute_displacement (cell : Cell) (block_boundary : Boundary)
    (cells : list Cell) (grid_size : Z) : Direction * Cost :=
  let directions := fold_left (tighten cell grid_size) cells all_inf in
  let directions := clip_to_extent cell directions in
  let best_move := min_key directions in
  (best_move, get directions best_move).

Arguments compute_displacement : simpl never.

(** ** Legalization engine *)

(** The terminal states of one rectangle: its loop ended because the
    [while] condition became false ([Resolved]), because no direction had a
    finite cost ([Stuck]), or because the rectangle was put back to its
    position before the loop ([Reverted]). *)
Inductive Outcome : Type := Resolved | Stuck | Reverted.

#[global] Instance Outcome_eq_dec : EqDecision Outcome.
Proof. solve_decision. Defined.

(** What one run of the [while] loop leaves behind besides the working list:
    how it ended, the final content of [seen_positions], and how many times
    the body was entered.  The last two are ghost data; the source does not
    return them. *)
Record Trace : Type :=
  mkTrace { outcome : Outcome; visited : list (Cell * Direction); iterations : nat }.

(** The four branches that translate [cell]. *)
Definition move (cell : Cell) (best_move : Direction) (displacement : Z) : Cell :=
  match best_move with
  | Left => translate cell (- displacement) 0
  | Right => translate cell displacement 0
  | Up => translate cell 0 displacement
  | Down => translate cell 0 (- displacement)
  end.

(** The [while] loop for the rectangle at index [i].  The content of the
    list [updated_cells] is passed from one iteration to the next, an
    assignment [updated_cells[i] = x] being [<[i := x]>]; [seen_positions]
    is the Python set, kept as a list; [n] counts the entries into the
    body. *)
Fixpoint while_loop (fuel : nat) (block_boundary : Boundary) (grid_size : Z)
    (i : nat) (original_cell cell : Cell)
    (seen_positions : list (Cell * Direction)) (n : nat)
    (updated_cells : list Cell) : result (list Cell * Trace) :=
  if has_overlap cell updated_cells || overlap_with_boundary cell block_boundary then
    match fuel with
    | O => Err OutOfFuel
    | S fuel' =>
      let '(best_move, displacement) :=
        compute_displacement cell block_boundary updated_cells grid_size in
      match displacement with
      | Inf => Ok (updated_cells, mkTrace Stuck seen_positions (S n))
      | Fin d =>
        if bool_decide ((cell, best_move) ∈ seen_positions) then
          Ok (<[i := original_cell]> updated_cells,
              mkTrace Reverted seen_positions (S n))
        else
          let seen_positions' := (cell, best_move) :: seen_positions in
          let cell' := move cell best_move d in
          if negb (is_inside_block cell' block_boundary) then
            Ok (<[i := original_cell]> updated_cells,
                mkTrace Reverted seen_positions' (S n))
          else
            while_loop fuel' block_boundary grid_size i original_cell cell'
              seen_positions' (S n) (<[i := cell']> updated_cells)
      end
    end
  else Ok (updated_cells, mkTrace Resolved seen_positions n).

(** The body of the [for] loop at index [i]. *)
Definition resolve_cell (fuel : nat) (block_boundary : Boundary) (grid_size : Z)
    (i : nat) (updated_cells : list Cell) : result (list Cell * Trace) :=
  match updated_cells !! i with
  | None => Ok (updated_cells, mkTrace Resolved [] 0%nat)
  | Some cell =>
      while_loop fuel block_boundary grid_size i cell cell [] 0%nat updated_cells
  end.

(** [for i, cell in enumerate(updated_cells)], over the indices [idx]. *)
Fixpoint for_enumerate (fuel : nat) (block_boundary : Boundary) (grid_size : Z)
    (idx : list nat) (updated_cells : list Cell) : result (list Cell * list Trace) :=
  match idx with
  | [] => Ok (updated_cells, [])
  | i :: idx' =>
      r <- resolve_cell fuel block_boundary grid_size i updated_cells ;;
      rest <- for_enumerate fuel block_boundary grid_size idx' (fst r) ;;
      Ok (fst rest, snd r :: snd rest)
  end.

(** The list comprehension that opens [resolve_overlaps]. *)
Definition snap_all (cells : list Cell) (grid_size : Z) : result (list Cell) :=
  mapM (fun cell => snap_to_grid cell grid_size) cells.

(** [resolve_overlaps] together with the trace of every rectangle. *)
Definition resolve_run (fuel : nat) (cells : list Cell) (block_boundary : Boundary)
    (grid_size : Z) : result (list Cell * list Trace) :=
  updated_cells <- snap_all cells grid_size ;;
  for_enumerate fuel block_boundary grid_size
    (seq 0 (length updated_cells)) updated_cells.

Definition resolve_overlaps (fuel : nat) (cells : list Cell) (block_boundary : Boundary)
    (grid_size : Z) : result (list Cell) :=
  r <- resolve_run fuel cells block_boundary grid_size ;;
  Ok (fst r).

(** ** Fixture *)

Definition all_standard_cells : list Cell :=
  [ mkCell 50 50 150 90; mkCell 140 60 260 120; mkCell 250 100 370 140;
    mkCell 350 80 470 160; mkCell 50 300 170 360; mkCell 160 320 310 400;
    mkCell 280 280 430 360; mkCell 400 300 550 380; mkCell 90 500 210 580;
    mkCell 200 540 330 600; mkCell 320 520 470 600; mkCell 50 700 170 760;
    mkCell 160 720 320 800; mkCell 300 750 460 820; mkCell 450 770 600 860;
    mkCell 100 900 240 980; mkCell 220 930 380 1000; mkCell 350 920 500 1000;
    mkCell 50 1100 180 1160; mkCell 160 1120 300 1200; mkCell 280 1150 420 1220;
    mkCell 400 1170 550 1260; mkCell 100 1300 250 1360; mkCell 220 1330 370 1400;
    mkCell 350 1320 500 1400; mkCell 50 1500 200 1580; mkCell 160 1520 320 1600;
    mkCell 300 1550 450 1620; mkCell 450 1570 600 1660; mkCell 100 1700 250 1780 ].

Definition standard_cells : list Cell :=
  List.filter (fun cell => is_inside_block cell block_boundary) all_standard_cells.

(** ** The caller's view: list objects

    Python lists are objects; [resolve_overlaps] receives a reference to the
    list [cells] and returns a reference.  A heap maps references to the
    content of the list they denote.  Shapely geometries are immutable, so
    only the lists need identity. *)

Abbreviation heap := (gmap nat (list Cell)).

(** A list display or comprehension: a new object. *)
Definition new_list (content : list Cell) (h : heap) : nat * heap :=
  let l := fresh (dom h) in (l, <[l := content]> h).

(** The assignment [updated_cells[i] = x], where [u] is the object that
    [updated_cells] refers to. *)
Definition list_setitem (u i : nat) (x : Cell) (h : heap) : heap :=
  <[u := <[i := x]> (h !!! u)]> h.

(** The [while] loop, reading and writing the list object [u]. *)
Fixpoint while_loop_obj (fuel : nat) (block_boundary : Boundary) (grid_size : Z)
    (u i : nat) (original_cell cell : Cell)
    (seen_positions : list (Cell * Direction)) (n : nat)
    (h : heap) : result (heap * Trace) :=
  if has_overlap cell (h !!! u) || overlap_with_boundary cell block_boundary then
    match fuel with
    | O => Err OutOfFuel
    | S fuel' =>
      let '(best_move, displacement) :=
        compute_displacement cell block_boundary (h !!! u) grid_size in
      match displacement with
      | Inf => Ok (h, mkTrace Stuck seen_positions (S n))
      | Fin d =>
        if bool_decide ((cell, best_move) ∈ seen_positions) then
          Ok (list_setitem u i original_cell h,
              mkTrace Reverted seen_positions (S n))
        else
          let seen_positions' := (cell, best_move) :: seen_positions in
          let cell' := move cell best_move d in
          if negb (is_inside_block cell' block_boundary) then
            Ok (list_setitem u i original_cell h,
                mkTrace Reverted seen_positions' (S n))
          else
            while_loop_obj fuel' block_boundary grid_size u i original_cell cell'
              seen_positions' (S n) (list_setitem u i cell' h)
      end
    end
  else Ok (h, mkTrace Resolved seen_positions n).

Definition resolve_cell_obj (fuel : nat) (block_boundary : Boundary) (grid_size : Z)
    (u i : nat) (h : heap) : result (heap * Trace) :=
  match (h !!! u) !! i with
  | None => Ok (h, mkTrace Resolved [] 0%nat)
  | Some cell =>
      while_loop_obj fuel block_boundary grid_size u i cell cell [] 0%nat h
  end.

Fixpoint for_enumerate_obj (fuel : nat) (block_boundary : Boundary) (grid_size : Z)
    (u : nat) (idx : list nat) (h : heap) : result (heap * list Trace) :=
  match idx with
  | [] => Ok (h, [])
  | i :: idx' =>
      r <- resolve_cell_obj fuel block_boundary grid_size u i h ;;
      rest <- for_enumerate_obj fuel block_boundary grid_size u idx' (fst r) ;;
      Ok (fst rest, snd r :: snd rest)
  end.

(** A call [resolve_overlaps(cells, block_boundary, grid_size)] in heap [h],
    where [cells] is the reference the caller passes.  The comprehension
    reads the caller's list and allocates [updated_cells]; the loops read
    and write that object; its reference is returned. *)
Definition resolve_overlaps_call (fuel : nat) (cells : nat) (block_boundary : Boundary)
    (grid_size : Z) (h : heap) : result (nat * heap) :=
  snapped <- snap_all (h !!! cells) grid_size ;;
  let '(updated_cells, h1) := new_list snapped h in
  r <- for_enumerate_obj fuel block_boundary grid_size updated_cells
         (seq 0 (length (h1 !!! updated_cells))) h1 ;;
  Ok (updated_cells, fst r).

(** ** The displacement calculator as the specification words it *)

(** Min of two costs. *)
Definition cost_meet (a b : Cost) : Cost :=
  match a, b with
  | Inf, c => c
  | c, Inf => c
  | Fin x, Fin y => Fin (Z.min x y)
  end.

(** The minimum of a list of numbers, infinite on the empty list. *)
Fixpoint minimum (l : list Z) : Cost :=
  match l with
  | [] => Inf
  | z :: l' => cost_meet (Fin z) (minimum l')
  end.

(** The other rectangles that intersect [cell]. *)
Definition intersecting_others (cell : Cell) (cells : list Cell) : list Cell :=
  List.filter (fun other => cell_neqb other cell && intersects cell other) cells.

(** The separation distance along the axis of [d]. *)
Definition separation (d : Direction) (cell other : Cell) : Z :=
  match d with
  | Left => maxx cell - minx other
  | Right => maxx other - minx cell
  | Down => maxy cell - miny other
  | Up => maxy other - miny cell
  end.

(** The reference extent [0,1000] x [0,2000]. *)
Definition in_extent (c : Cell) : bool :=
  (0 <=? minx c) && (maxx c <=? 1000) && (0 <=? miny c) && (maxy c <=? 2000).

(** "The resulting position would leave the reference extent." *)
Definition stays_in_extent (cell : Cell) (d : Direction) (v : Z) : bool :=
  in_extent (move cell d v).

(** The leading edge of the moved rectangle stays inside the extent: only
    the side of the extent that lies in the direction of the move is
    looked at. *)
Definition leading_edge_inside (cell : Cell) (d : Direction) (v : Z) : bool :=
  match d with
  | Left => 0 <=? minx cell - v
  | Right => maxx cell + v <=? 1000
  | Down => 0 <=? miny cell - v
  | Up => maxy cell + v <=? 2000
  end.

(** The cost of a direction: the minimum over the intersecting others of the
    separation plus the quantum, then infinity when the move is not [ok]. *)
Definition direction_cost (ok : Cell -> Direction -> Z -> bool) (cell : Cell)
    (cells : list Cell) (q : Z) (d : Direction) : Cost :=
  match minimum (map (fun other => separation d cell other + q)
                     (intersecting_others cell cells)) with
  | Inf => Inf
  | Fin v => if ok cell d v then Fin v else Inf
  end.

Definition direction_order : list Direction := [Left; Right; Up; Down].

(** The first direction of the fixed order whose cost is the minimum. *)
Definition first_minimal (cost : Direction -> Cost) : Direction :=
  let m := cost_meet (cost Left) (cost_meet (cost Right) (cost_meet (cost Up) (cost Down))) in
  match List.find (fun d => bool_decide (cost d = m)) direction_order with
  | Some d => d
  | None => Left
  end.

Definition displacement_spec (ok : Cell -> Direction -> Z -> bool) (cell : Cell)
    (cells : list Cell) (q : Z) : Direction * Cost :=
  let d := first_minimal (direction_cost ok cell cells q) in
  (d, direction_cost ok cell cells q d).

(** The calculator exactly as the specification states it, with the test on
    the whole resulting position. *)
Definition compute_displacement_spec (cell : Cell) (cells : list Cell) (q : Z)
    : Direction * Cost :=
  displacement_spec stays_in_extent cell cells q.

(** ** Properties stated by the specification *)

(** All four corners on the grid. *)
Definition corners_on_grid (c : Cell) (q : Z) : Prop :=
  Z.divide q (minx c) /\ Z.divide q (miny c) /\
  Z.divide q (maxx c) /\ Z.divide q (maxy c).

(** The rectangle at index [i] of [cells] intersects no rectangle at another
    index. *)
Definition intersects_no_other (cells : list Cell) (i : nat) (c : Cell) : Prop :=
  forall j o, j <> i -> cells !! j = Some o -> intersects c o = false.

(** "Either fully contained in the boundary and intersecting no other
    rectangle of the returned set, or equal to its snapped position", for
    the rectangle at index [i]. *)
Definition legal_or_restored (bd : Boundary) (out snapped : list Cell) (i : nat) : Prop :=
  forall c s, out !! i = Some c -> snapped !! i = Some s ->
    (is_inside_block c bd = true /\ intersects_no_other out i c) \/ c = s.

(** The content of [updated_cells] when the loop of the rectangle at index
    [i] starts: the final positions of the rectangles before it and the
    snapped positions from [i] on. *)
Definition working_set (i : nat) (out snapped : list Cell) : list Cell :=
  take i out ++ drop i snapped.

(** The region that bounds the positions a rectangle can be moved to: the
    lower-left corner stays between its first value and the side of the
    extent, on both axes. *)
Definition x_lo (c : Cell) : Z := Z.min (minx c) 0.
Definition x_hi (c : Cell) : Z := Z.max (minx c) (1000 - (maxx c - minx c)).
Definition y_lo (c : Cell) : Z := Z.min (miny c) 0.
Definition y_hi (c : Cell) : Z := Z.max (miny c) (2000 - (maxy c - miny c)).

(** The number of (bounds, direction) pairs in that region. *)
Definition pair_bound (c : Cell) : nat :=
  (4 * (Z.to_nat (x_hi c - x_lo c + 1) * Z.to_nat (y_hi c - y_lo c + 1)))%nat.

(** The same region as a predicate: the size of [orig] and a lower-left
    corner between the bounds. *)
Definition in_region (orig c : Cell) : Prop :=
  maxx c - minx c = maxx orig - minx orig /\
  maxy c - miny c = maxy orig - miny orig /\
  x_lo orig <= minx c <= x_hi orig /\
  y_lo orig <= miny c <= y_hi orig.

(** The integers [lo], [lo + 1], ..., [lo + n - 1]. *)
Definition zrange (lo : Z) (n : nat) : list Z :=
  map (fun k => lo + Z.of_nat k) (seq 0 n).

(** Every rectangle of the region, and every (bounds, direction) pair. *)
Definition region_cells (orig : Cell) : list Cell :=
  map (fun p => mkCell (fst p) (snd p)
                       (fst p + (maxx orig - minx orig))
                       (snd p + (maxy orig - miny orig)))
      (list_prod (zrange (x_lo orig) (Z.to_nat (x_hi orig - x_lo orig + 1)))
                 (zrange (y_lo orig) (Z.to_nat (y_hi orig - y_lo orig + 1)))).

Definition region_pairs (orig : Cell) : list (Cell * Direction) :=
  list_prod (region_cells orig) direction_order.

(** The condition of the [while] loop. *)
Definition loop_condition (block_boundary : Boundary) (cell : Cell)
    (updated_cells : list Cell) : bool :=
  has_overlap cell updated_cells || overlap_with_boundary cell block_boundary.

(** The postcondition of the loop for index [i], started on the working
    list [ws0] with the rectangle [cell0] that sits at index [i]. *)
Definition loop_post (bd : Boundary) (q : Z) (i : nat) (cell0 : Cell)
    (ws0 ws' : list Cell) (t : Trace) : Prop :=
  length ws' = length ws0 /\
  (forall k, k <> i -> ws' !! k = ws0 !! k) /\
  exists c', ws' !! i = Some c' /\
    (c' = cell0 \/ is_inside_block c' bd = true) /\
    match outcome t with
    | Reverted => c' = cell0
    | Resolved => has_overlap c' ws' = false /\ is_inside_block c' bd = true
    | Stuck => snd (compute_displacement c' bd ws' q) = Inf
    end.

(** The memo set holds distinct pairs of the region, and the body was
    entered at most once more than there are pairs in it. *)
Definition trace_post (orig : Cell) (t : Trace) : Prop :=
  List.NoDup (visited t) /\
  incl (visited t) (region_pairs orig) /\
  (iterations t <= S (length (visited t)))%nat /\
  (length (visited t) <= pair_bound orig)%nat.

(** Fuel that is enough for every rectangle of a snapped list. *)
Definition enough_fuel (snapped : list Cell) : nat :=
  S (foldr Nat.max 0%nat (map pair_bound snapped)).

(** ** Example inputs *)

(** Three tall rectangles of the lower part of the block: [tall_b] overlaps
    [tall_c], and [tall_a] stands ten units to its left. *)
Definition tall_a : Cell := mkCell 0 0 490 1000.
Definition tall_b : Cell := mkCell 500 0 1000 1000.
Definition tall_c : Cell := mkCell 980 0 1000 1000.
Definition tall_cells : list Cell := [tall_a; tall_b; tall_c].

(** Two rectangles at the top of the block, both inside it, that overlap once
    snapped; and what the snap makes of them: both stick out of the
    reference extent by ten units. *)
Definition top_cells : list Cell := [mkCell 100 1910 200 2000; mkCell 190 1910 300 2000].
Definition high_cell : Cell := mkCell 100 1920 200 2010.
Definition high_neighbour : Cell := mkCell 200 1920 310 2010.

(** The run of the engine on the three tall rectangles. *)
Definition tall_run : list Cell * list Trace :=
  Eval vm_compute in
    match resolve_run 10 tall_cells block_boundary GRID_HEIGHT with
    | Ok r => r
    | Err _ => ([], [])
    end.

(** The fixture after snapping, and the run of the engine on it. *)
Definition fixture_snapped : list Cell :=
  Eval vm_compute in
    match snap_all standard_cells GRID_HEIGHT with
    | Ok l => l
    | Err _ => []
    end.

Definition fixture_run : list Cell * list Trace :=
  Eval vm_compute in
    match resolve_run 10 standard_cells block_boundary GRID_HEIGHT with
    | Ok r => r
    | Err _ => ([], [])
    end.

(** Two overlapping rectangles of the fixture. *)
Definition pair_cells : list Cell := [mkCell 50 50 150 90; mkCell 140 60 260 120].

(** A rectangle that lies across the strip removed from the block. *)
Definition strip_cell : Cell := mkCell 40 1100 160 1160.

(** Two coincident rectangles. *)
Definition twin : Cell := mkCell 100 100 200 140.

(** ** Movement report

    [summarize_movements] prints one line per cell and the maximum; the
    model returns what it prints.  [compute_distance] takes centroids and a
    square root in double precision; the report only compares its results,
    so the distance and its order are parameters: [D] is the type of the
    displacements, [gtb a b] is [a > b] and [zero] is the initial
    [max_movement = 0]. *)
Section Movements.
Context {D : Type}.
Variable compute_distance : Cell -> Cell -> D.
Variable gtb : D -> D -> bool.
Variable zero : D.

(** The local variables [movements], [max_movement], [max_cell_idx]. *)
Record Summary : Type :=
  mkSummary { movements : list (nat * D); max_movement : D; max_cell_idx : Z }.

(** The body of the loop, for the index [i] and the pair [(orig, new)]. *)
Definition summarize_step (s : Summary) (p : nat * (Cell * Cell)) : Summary :=
  let displacement := compute_distance (fst (snd p)) (snd (snd p)) in
  let moves := movements s ++ [(fst p, displacement)] in
  if gtb displacement (max_movement s)
  then mkSummary moves displacement (Z.of_nat (fst p))
  else mkSummary moves (max_movement s) (max_cell_idx s).

(** [enumerate(zip(initial_cells, final_cells))], from index [start]. *)
Definition enumerate_zip (start : nat) (initial_cells final_cells : list Cell)
    : list (nat * (Cell * Cell)) :=
  combine (seq start (length (combine initial_cells final_cells)))
          (combine initial_cells final_cells).

Definition summarize_movements (initial_cells final_cells : list Cell) : Summary :=
  fold_left summarize_step (enumerate_zip 0 initial_cells final_cells)
            (mkSummary [] zero (-1)).

(** The displacement of an enumerated pair. *)
Definition pair_distance (p : nat * (Cell * Cell)) : D :=
  compute_distance (fst (snd p)) (snd (snd p)).

(** The state of the loop after the pairs [done]: either nothing has
    exceeded zero yet, or the maximum is held by the first pair that
    reaches it. *)
Definition summary_inv (done : list (nat * (Cell * Cell))) (s : Summary) : Prop :=
  movements s = map (fun p => (fst p, pair_distance p)) done /\
  ((max_cell_idx s = -1 /\ max_movement s = zero /\
    forall p, In p done -> gtb (pair_distance p) zero = false) \/
   (exists k p, done !! k = Some p /\
      max_cell_idx s = Z.of_nat (fst p) /\
      max_movement s = pair_distance p /\
      gtb (pair_distance p) zero = true /\
      (forall p', In p' done -> gtb (pair_distance p') (pair_distance p) = false) /\
      (forall k' p', (k' < k)%nat -> done !! k' = Some p' ->
         gtb (pair_distance p) (pair_distance p') = true))).
End Movements.

(** The squared distance between the centres of two rectangles, times four:
    an instance of the distance that orders pairs as the Euclidean distance
    between centroids does. *)
Definition centre_distance2 (a b : Cell) : Z :=
  ((minx b + maxx b) - (minx a + maxx a)) ^ 2 +
  ((miny b + maxy b) - (miny a + maxy a)) ^ 2.

(** Width and height. *)
Definition width (c : Cell) : Z := maxx c - minx c.
Definition height (c : Cell) : Z := maxy c - miny c.

(** No two rectangles of the list intersect, unless they are equal. *)
Definition pairwise_clear (cells : list Cell) : Prop :=
  forall a b, a ∈ cells -> b ∈ cells -> a = b \/ intersects a b = false.

(** The lower-left corner is on the grid. *)
Definition on_grid (c : Cell) (q : Z) : Prop :=
  Z.divide q (minx c) /\ Z.divide q (miny c).

(** Three rectangles in a chain: the first overlaps the second; the third
    stands to the left of the first and, once snapped, across the strip
    removed from the block. *)
Definition chain_cells : list Cell :=
  [mkCell 40 0 1000 1000; mkCell 980 0 1000 30; mkCell 20 30 30 1000].

Definition chain_snapped : list Cell :=
  Eval vm_compute in
    match snap_all chain_cells GRID_HEIGHT with
    | Ok l => l
    | Err _ => []
    end.

Definition chain_run : list Cell * list Trace :=
  Eval vm_compute in
    match resolve_run 10 chain_cells block_boundary GRID_HEIGHT with
    | Ok r => r
    | Err _ => ([], [])
    end.

(** * Proofs *)

(** ** The error monad *)

Lemma bind_Ok_inv {A B : Type} (m : result A) (f : A -> result B) (b : B) :
  (x <- m ;; f x) = Ok b -> exists a, m = Ok a /\ f a = Ok b.
Proof. destruct m as [a|e]; simpl; [eauto | discriminate]. Qed.

Lemma mapM_Ok_lookup {A B : Type} (f : A -> result B) (l : list A) (l' : list B) :
  mapM f l = Ok l' ->
  length l' = length l /\
  forall i b, l' !! i = Some b -> exists a, l !! i = Some a /\ f a = Ok b.
Proof.
  revert l'. induction l as [|a l IH]; intros l' H; simpl in H.
  - inversion H; subst. split; [reflexivity | intros i b Hb; destruct i; discriminate].
  - apply bind_Ok_inv in H as (b0 & Hb0 & H).
    apply bind_Ok_inv in H as (bs & Hbs & H). inversion H; subst.
    destruct (IH _ Hbs) as [Hlen Hlk]. split; [simpl; congruence |].
    intros [|i] b Hb; simpl in *.
    + inversion Hb; subst. eauto.
    + eauto.
Qed.

Lemma mapM_total {A B : Type} (f : A -> result B) (l : list A) :
  (forall a, exists b, f a = Ok b) -> exists l', mapM f l = Ok l'.
Proof.
  intros Hf. induction l as [|a l [l' IH]]; simpl; [eauto |].
  destruct (Hf a) as [b ->]. rewrite IH. simpl. eauto.
Qed.

(** ** Grid snapper *)

Lemma round_half_even_multiple (k q : Z) : 0 < q -> round_half_even (k * q) q = k.
Proof.
  intros Hq. unfold round_half_even.
  rewrite Z.div_mul, Z.mod_mul by lia.
  destruct (Z.ltb_spec (2 * 0) q); [reflexivity | lia].
Qed.

Lemma snap_to_grid_positive (r : Cell) (q : Z) :
  0 < q ->
  snap_to_grid r q =
    Ok (translate r (round_half_even (minx r) q * q - minx r)
                    (round_half_even (miny r) q * q - miny r)).
Proof.
  intros Hq. unfold snap_to_grid, py_round_div.
  destruct (Z.eqb_spec q 0); [lia |].
  destruct (Z.ltb_spec q 0); [lia |]. reflexivity.
Qed.

Lemma snap_to_grid_corner (r r' : Cell) (q : Z) :
  0 < q -> snap_to_grid r q = Ok r' ->
  minx r' = round_half_even (minx r) q * q /\
  miny r' = round_half_even (miny r) q * q /\
  maxx r' - minx r' = maxx r - minx r /\
  maxy r' - miny r' = maxy r - miny r.
Proof.
  intros Hq H. rewrite snap_to_grid_positive in H by assumption.
  inversion H; subst; clear H. unfold translate; simpl. lia.
Qed.

Lemma snap_all_total (cells : list Cell) (q : Z) :
  0 < q -> exists snapped, snap_all cells q = Ok snapped.
Proof.
  intros Hq. apply mapM_total. intros a.
  rewrite snap_to_grid_positive by assumption. eauto.
Qed.

(** C6. Snapping is idempotent: for a positive quantum, snapping a rectangle
    succeeds and snapping the result again gives the same rectangle. *)
Theorem snap_to_grid_idempotent (r : Cell) (q : Z) :
  0 < q ->
  exists r', snap_to_grid r q = Ok r' /\ snap_to_grid r' q = Ok r'.
Proof.
  intros Hq. rewrite snap_to_grid_positive by assumption.
  eexists; split; [reflexivity |].
  rewrite snap_to_grid_positive by assumption. f_equal.
  destruct r as [x1 y1 x2 y2]; unfold translate; simpl.
  replace (x1 + (round_half_even x1 q * q - x1)) with (round_half_even x1 q * q) by lia.
  replace (y1 + (round_half_even y1 q * q - y1)) with (round_half_even y1 q * q) by lia.
  rewrite !round_half_even_multiple by assumption.
  f_equal; lia.
Qed.

Lemma snap_to_grid_idempotent_witness :
  exists r', snap_to_grid (mkCell 250 100 370 140) GRID_HEIGHT = Ok r' /\
             snap_to_grid r' GRID_HEIGHT = Ok r'.
Proof. apply (snap_to_grid_idempotent (mkCell 250 100 370 140) GRID_HEIGHT). reflexivity. Defined.

(** C7, as stated: it fails on the tenth rectangle that the fixture keeps,
    whose width 130 is not a multiple of the grid height 20. *)
Lemma snapped_corners_counterexample :
  exists snapped c,
    snap_all standard_cells GRID_HEIGHT = Ok snapped /\
    snapped !! 9%nat = Some c /\
    ~ corners_on_grid c GRID_HEIGHT.
Proof.
  exists (match snap_all standard_cells GRID_HEIGHT with Ok l => l | Err _ => [] end).
  exists (mkCell 200 540 330 600).
  split; [vm_compute; reflexivity |]. split; [vm_compute; reflexivity |].
  intros (_ & _ & [k Hk] & _). unfold GRID_HEIGHT in Hk. simpl in Hk. lia.
Qed.

(** C7, amended. After the snapping step of [resolve_overlaps] the lower-left
    corner of every rectangle is on the grid and the rectangle has kept its
    width and height; so its upper-right corner is on the grid exactly when
    the width and the height are multiples of the quantum. *)
Theorem snapped_lower_left_on_grid (cells : list Cell) (q : Z) :
  0 < q ->
  exists snapped,
    snap_all cells q = Ok snapped /\
    length snapped = length cells /\
    forall i c, snapped !! i = Some c ->
      exists c0, cells !! i = Some c0 /\
        Z.divide q (minx c) /\ Z.divide q (miny c) /\
        maxx c - minx c = maxx c0 - minx c0 /\
        maxy c - miny c = maxy c0 - miny c0 /\
        (Z.divide q (maxx c) <-> Z.divide q (maxx c0 - minx c0)) /\
        (Z.divide q (maxy c) <-> Z.divide q (maxy c0 - miny c0)).
Proof.
  intros Hq. destruct (snap_all_total cells q Hq) as [snapped Hs].
  exists snapped. split; [assumption |].
  destruct (mapM_Ok_lookup _ _ _ Hs) as [Hlen Hlk]. split; [assumption |].
  intros i c Hc. destruct (Hlk i c Hc) as (c0 & Hc0 & Hsnap).
  exists c0. split; [assumption |].
  destruct (snap_to_grid_corner _ _ _ Hq Hsnap) as (Hx & Hy & Hw & Hh).
  assert (Dx : Z.divide q (minx c)) by (rewrite Hx; apply Z.divide_factor_r).
  assert (Dy : Z.divide q (miny c)) by (rewrite Hy; apply Z.divide_factor_r).
  split; [assumption |]. split; [assumption |].
  split; [assumption |]. split; [assumption |].
  rewrite <- Hw, <- Hh. split; split; intros D.
  - apply Z.divide_sub_r; assumption.
  - replace (maxx c) with ((maxx c - minx c) + minx c) by lia.
    apply Z.divide_add_r; assumption.
  - apply Z.divide_sub_r; assumption.
  - replace (maxy c) with ((maxy c - miny c) + miny c) by lia.
    apply Z.divide_add_r; assumption.
Qed.

Lemma snapped_lower_left_on_grid_witness :
  exists snapped,
    snap_all standard_cells GRID_HEIGHT = Ok snapped /\
    length snapped = length standard_cells /\
    forall i c, snapped !! i = Some c ->
      exists c0, standard_cells !! i = Some c0 /\
        Z.divide GRID_HEIGHT (minx c) /\ Z.divide GRID_HEIGHT (miny c) /\
        maxx c - minx c = maxx c0 - minx c0 /\
        maxy c - miny c = maxy c0 - miny c0 /\
        (Z.divide GRID_HEIGHT (maxx c) <-> Z.divide GRID_HEIGHT (maxx c0 - minx c0)) /\
        (Z.divide GRID_HEIGHT (maxy c) <-> Z.divide GRID_HEIGHT (maxy c0 - miny c0)).
Proof. apply (snapped_lower_left_on_grid standard_cells GRID_HEIGHT). reflexivity. Defined.

(** ** Displacement calculator *)

Lemma cost_min_meet (c : Cost) (z : Z) : cost_min c z = cost_meet c (Fin z).
Proof. destruct c; reflexivity. Qed.

Lemma cost_meet_assoc (a b c : Cost) :
  cost_meet (cost_meet a b) c = cost_meet a (cost_meet b c).
Proof. destruct a, b, c; simpl; try reflexivity. f_equal. lia. Qed.

Lemma cost_meet_Inf_r (a : Cost) : cost_meet a Inf = a.
Proof. destruct a; reflexivity. Qed.

(** [minimum] is the least element of the list. *)
Lemma minimum_Inf (l : list Z) : minimum l = Inf <-> l = [].
Proof.
  destruct l as [|z l]; simpl; [tauto |].
  split; [| discriminate]. destruct (minimum l); discriminate.
Qed.

Lemma minimum_Fin (l : list Z) (m : Z) :
  minimum l = Fin m -> In m l /\ forall z, In z l -> m <= z.
Proof.
  revert m. induction l as [|z l IH]; intros m H; simpl in H; [discriminate |].
  destruct (minimum l) as [m'|] eqn:E; simpl in H; inversion H; subst; clear H.
  - destruct (IH m' eq_refl) as [Hin Hle].
    split.
    + destruct (Z.min_spec z m') as [[_ ->]|[_ ->]]; simpl; auto.
    + intros z' [<-|Hz']; [lia |]. specialize (Hle z' Hz'). lia.
  - apply minimum_Inf in E; subst. split; [left; reflexivity |].
    intros z' [<-|[]]; lia.
Qed.

(** The loop over [cells] computes, for each key, the minimum over the
    intersecting others. *)
Lemma fold_tighten (cell : Cell) (q : Z) (cells : list Cell) (acc : Directions) :
  fold_left (tighten cell q) cells acc =
  let m d := minimum (map (fun other => separation d cell other + q)
                          (intersecting_others cell cells)) in
  mkDirections (cost_meet (d_left acc) (m Left)) (cost_meet (d_right acc) (m Right))
               (cost_meet (d_up acc) (m Up)) (cost_meet (d_down acc) (m Down)).
Proof.
  revert acc. induction cells as [|o cells IH]; intros acc; simpl.
  - rewrite !cost_meet_Inf_r. destruct acc; reflexivity.
  - rewrite IH. unfold tighten, intersecting_others. simpl.
    destruct (cell_neqb o cell && intersects cell o); simpl; [| reflexivity].
    rewrite !cost_min_meet, !cost_meet_assoc. reflexivity.
Qed.

Lemma invalidate_leading_edge (cell : Cell) (cells : list Cell) (q : Z) :
  clip_to_extent cell (fold_left (tighten cell q) cells all_inf) =
  mkDirections (direction_cost leading_edge_inside cell cells q Left)
               (direction_cost leading_edge_inside cell cells q Right)
               (direction_cost leading_edge_inside cell cells q Up)
               (direction_cost leading_edge_inside cell cells q Down).
Proof.
  rewrite fold_tighten. unfold clip_to_extent, direction_cost, all_inf; simpl.
  f_equal;
    match goal with |- context [minimum ?l] => destruct (minimum l) as [v|] end;
    simpl; try reflexivity.
  - destruct (Z.ltb_spec (minx cell - v) 0), (Z.leb_spec 0 (minx cell - v));
      first [reflexivity | lia].
  - destruct (Z.ltb_spec 1000 (maxx cell + v)), (Z.leb_spec (maxx cell + v) 1000);
      first [reflexivity | lia].
  - destruct (Z.ltb_spec 2000 (maxy cell + v)), (Z.leb_spec (maxy cell + v) 2000);
      first [reflexivity | lia].
  - destruct (Z.ltb_spec (miny cell - v) 0), (Z.leb_spec 0 (miny cell - v));
      first [reflexivity | lia].
Qed.

Ltac split_comparisons :=
  repeat first
    [ progress simpl
    | match goal with
      | |- context [?x <? ?y] => destruct (Z.ltb_spec x y)
      | |- context [bool_decide ?P] => destruct (bool_decide_reflect P)
      end ].

Ltac close_cost_case :=
  try reflexivity; exfalso;
  repeat match goal with
         | H : Fin _ = Fin _ |- _ => injection H as H
         | H : Fin _ = Inf |- _ => discriminate H
         | H : Inf = Fin _ |- _ => discriminate H
         | H : Fin ?x <> Fin ?y |- _ => assert (x <> y) by congruence; clear H
         | H : Inf <> Inf |- _ => destruct (H eq_refl)
         end; lia.

(** The scan of the dictionary keys returns the first key of the fixed
    order whose value is the minimum. *)
Lemma min_key_first_minimal (d : Directions) : min_key d = first_minimal (get d).
Proof.
  destruct d as [[a|] [b|] [c|] [e|]];
    unfold min_key, first_minimal, direction_order;
    split_comparisons; close_cost_case.
Qed.

Lemma separation_nonneg (d : Direction) (cell other : Cell) :
  intersects cell other = true -> 0 <= separation d cell other.
Proof.
  unfold intersects. rewrite !andb_true_iff, !Z.leb_le.
  destruct d; simpl; lia.
Qed.

Lemma minimum_cost_at_least_quantum (cell : Cell) (cells : list Cell) (q : Z)
    (d : Direction) (v : Z) :
  minimum (map (fun other => separation d cell other + q)
               (intersecting_others cell cells)) = Fin v ->
  q <= v.
Proof.
  intros H. apply minimum_Fin in H as [Hin _].
  apply in_map_iff in Hin as (o & <- & Ho).
  apply filter_In in Ho as [_ Ho]. apply andb_true_iff in Ho as [_ Ho].
  pose proof (separation_nonneg d cell o Ho). lia.
Qed.

(** For a rectangle inside the reference extent and a quantum that is not
    negative, the test on the leading edge is the test on the whole
    resulting position. *)
Lemma leading_edge_is_extent_test (cell : Cell) (cells : list Cell) (q : Z) :
  in_extent cell = true -> 0 <= q ->
  displacement_spec leading_edge_inside cell cells q =
  compute_displacement_spec cell cells q.
Proof.
  intros Hin Hq.
  assert (E : forall d, direction_cost leading_edge_inside cell cells q d =
                        direction_cost stays_in_extent cell cells q d).
  { intros d. unfold direction_cost.
    destruct (minimum _) as [v|] eqn:Hm; [| reflexivity].
    apply minimum_cost_at_least_quantum in Hm.
    replace (stays_in_extent cell d v) with (leading_edge_inside cell d v); [reflexivity |].
    unfold stays_in_extent, in_extent in *.
    rewrite !andb_true_iff, !Z.leb_le in Hin.
    destruct d; simpl;
      repeat match goal with
             | |- context [?x <=? ?y] => destruct (Z.leb_spec x y)
             end; simpl; first [reflexivity | lia]. }
  unfold compute_displacement_spec, displacement_spec, first_minimal, direction_order.
  simpl. rewrite !E. reflexivity.
Qed.

(** The translation of the source and the calculator stated with the
    leading-edge test agree on every input. *)
Lemma compute_displacement_eq_spec (cell : Cell) (block_boundary : Boundary)
    (cells : list Cell) (q : Z) :
  compute_displacement cell block_boundary cells q =
  displacement_spec leading_edge_inside cell cells q.
Proof.
  unfold compute_displacement.
  rewrite invalidate_leading_edge, min_key_first_minimal.
  unfold displacement_spec.
  set (cost := direction_cost leading_edge_inside cell cells q).
  assert (G : forall d, get (mkDirections (cost Left) (cost Right) (cost Up) (cost Down)) d
                        = cost d) by (intros []; reflexivity).
  replace (first_minimal (get (mkDirections (cost Left) (cost Right) (cost Up) (cost Down))))
    with (first_minimal cost) by reflexivity.
  rewrite G. reflexivity.
Qed.


(** C4, as stated: it fails for a rectangle that sticks out of the extent on
    the other axis, as the first of [top_cells] does once snapped.  The code
    answers (left, 20) although the position that move results in is outside
    the extent, as is the one of every direction but down; by the statement
    the answer is (down, 110). *)
Lemma compute_displacement_extent_counterexample :
  forallb (fun c => is_inside_block c block_boundary) top_cells = true /\
  snap_all top_cells GRID_HEIGHT = Ok [high_cell; high_neighbour] /\
  compute_displacement high_cell block_boundary [high_cell; high_neighbour] GRID_HEIGHT
    = (Left, Fin 20) /\
  in_extent (move high_cell Left 20) = false /\
  compute_displacement_spec high_cell [high_cell; high_neighbour] GRID_HEIGHT
    = (Down, Fin 110).
Proof. repeat split. Qed.

(** C4, amended. [compute_displacement] returns (direction, cost) where the
    cost of a direction is the minimum, over the other rectangles that
    intersect the cell, of the separation along that axis plus the quantum
    (infinity when there is none); a direction is set to infinity when the
    leading edge of the moved rectangle would cross the side of the extent
    it moves towards (left: minx - cost < 0, right: maxx + cost > 1000,
    down: miny - cost < 0, up: maxy + cost > 2000); and the direction
    returned is the first of left, right, up, down that attains the minimum
    cost.  For a cell inside the extent and a quantum that is not negative,
    that is the calculator as the specification states it. *)
Theorem compute_displacement_meets_spec (cell : Cell) (block_boundary : Boundary)
    (cells : list Cell) (q : Z) :
  compute_displacement cell block_boundary cells q =
    displacement_spec leading_edge_inside cell cells q /\
  (in_extent cell = true -> 0 <= q ->
   compute_displacement cell block_boundary cells q =
     compute_displacement_spec cell cells q).
Proof.
  split; [apply compute_displacement_eq_spec |].
  intros Hin Hq. rewrite compute_displacement_eq_spec.
  apply leading_edge_is_extent_test; assumption.
Qed.

Lemma compute_displacement_meets_spec_witness :
  compute_displacement (mkCell 40 40 140 80) block_boundary fixture_snapped GRID_HEIGHT =
  compute_displacement_spec (mkCell 40 40 140 80) fixture_snapped GRID_HEIGHT.
Proof.
  destruct (compute_displacement_meets_spec (mkCell 40 40 140 80) block_boundary
              fixture_snapped GRID_HEIGHT) as [_ H].
  apply H; [reflexivity | unfold GRID_HEIGHT; lia].
Defined.

(** ** The [while] loop *)

Lemma compute_displacement_finite (cell : Cell) (bd : Boundary) (ws : list Cell)
    (q : Z) (d : Direction) (v : Z) :
  compute_displacement cell bd ws q = (d, Fin v) ->
  q <= v /\ leading_edge_inside cell d v = true.
Proof.
  rewrite compute_displacement_eq_spec. unfold displacement_spec.
  intros H. inversion H as [[Hd Hc]]. clear H Hd.
  set (d' := first_minimal _) in *. clearbody d'.
  unfold direction_cost in Hc.
  destruct (minimum _) as [m|] eqn:Hm; [| discriminate].
  destruct (leading_edge_inside cell d' m) eqn:Hok; [| discriminate].
  inversion Hc; subst. split; [| assumption].
  eapply minimum_cost_at_least_quantum; eassumption.
Qed.

Lemma while_loop_O (bd : Boundary) (q : Z) (i : nat) (orig cell : Cell)
    (seen : list (Cell * Direction)) (n : nat) (ws : list Cell) :
  while_loop 0 bd q i orig cell seen n ws =
  if loop_condition bd cell ws then Err OutOfFuel
  else Ok (ws, mkTrace Resolved seen n).
Proof. reflexivity. Qed.

Lemma while_loop_S (fuel : nat) (bd : Boundary) (q : Z) (i : nat) (orig cell : Cell)
    (seen : list (Cell * Direction)) (n : nat) (ws : list Cell) :
  while_loop (S fuel) bd q i orig cell seen n ws =
  if loop_condition bd cell ws then
    match compute_displacement cell bd ws q with
    | (d, Inf) => Ok (ws, mkTrace Stuck seen (S n))
    | (d, Fin v) =>
        if bool_decide ((cell, d) ∈ seen) then
          Ok (<[i := orig]> ws, mkTrace Reverted seen (S n))
        else if is_inside_block (move cell d v) bd then
          while_loop fuel bd q i orig (move cell d v) ((cell, d) :: seen) (S n)
            (<[i := move cell d v]> ws)
        else Ok (<[i := orig]> ws, mkTrace Reverted ((cell, d) :: seen) (S n))
    end
  else Ok (ws, mkTrace Resolved seen n).
Proof.
  cbn [while_loop]. unfold loop_condition, negb.
  destruct (has_overlap cell ws || overlap_with_boundary cell bd); [| reflexivity].
  destruct (compute_displacement cell bd ws q) as [d [v|]]; [| reflexivity].
  destruct (bool_decide ((cell, d) ∈ seen)); [reflexivity |].
  destruct (is_inside_block (move cell d v) bd); reflexivity.
Qed.

(** A Hoare-style rule for the loop: an invariant of the loop head that
    every exit turns into the postcondition. *)
Section WhileRule.
Variables (bd : Boundary) (q : Z) (i : nat) (orig : Cell).
Variable Inv : Cell -> list (Cell * Direction) -> nat -> list Cell -> Prop.
Variable Post : list Cell -> Trace -> Prop.

Hypothesis exit_resolved : forall cell seen n ws,
  Inv cell seen n ws -> loop_condition bd cell ws = false ->
  Post ws (mkTrace Resolved seen n).
Hypothesis exit_stuck : forall cell seen n ws d,
  Inv cell seen n ws -> loop_condition bd cell ws = true ->
  compute_displacement cell bd ws q = (d, Inf) ->
  Post ws (mkTrace Stuck seen (S n)).
Hypothesis exit_deadlock : forall cell seen n ws d v,
  Inv cell seen n ws -> loop_condition bd cell ws = true ->
  compute_displacement cell bd ws q = (d, Fin v) ->
  (cell, d) ∈ seen ->
  Post (<[i := orig]> ws) (mkTrace Reverted seen (S n)).
Hypothesis exit_outside : forall cell seen n ws d v,
  Inv cell seen n ws -> loop_condition bd cell ws = true ->
  compute_displacement cell bd ws q = (d, Fin v) ->
  (cell, d) ∉ seen ->
  is_inside_block (move cell d v) bd = false ->
  Post (<[i := orig]> ws) (mkTrace Reverted ((cell, d) :: seen) (S n)).
Hypothesis commit : forall cell seen n ws d v,
  Inv cell seen n ws -> loop_condition bd cell ws = true ->
  compute_displacement cell bd ws q = (d, Fin v) ->
  (cell, d) ∉ seen ->
  is_inside_block (move cell d v) bd = true ->
  Inv (move cell d v) ((cell, d) :: seen) (S n) (<[i := move cell d v]> ws).

Lemma while_loop_rule (fuel : nat) (cell : Cell) (seen : list (Cell * Direction))
    (n : nat) (ws : list Cell) (r : list Cell * Trace) :
  Inv cell seen n ws ->
  while_loop fuel bd q i orig cell seen n ws = Ok r ->
  Post (fst r) (snd r).
Proof.
  revert cell seen n ws.
  induction fuel as [|fuel IH]; intros cell seen n ws HI H.
  { rewrite while_loop_O in H.
    destruct (loop_condition bd cell ws) eqn:Hc; [discriminate |].
    inversion H; subst; simpl. eapply exit_resolved; eassumption. }
  rewrite while_loop_S in H.
  destruct (loop_condition bd cell ws) eqn:Hc.
  2: { inversion H; subst; simpl. eapply exit_resolved; eassumption. }
  destruct (compute_displacement cell bd ws q) as [d [v|]] eqn:Hd.
  - destruct (bool_decide_reflect ((cell, d) ∈ seen)) as [Hin|Hnin].
    + inversion H; subst; simpl. eapply exit_deadlock; eassumption.
    + destruct (is_inside_block (move cell d v) bd) eqn:Hb.
      * eapply IH; [| exact H]. eapply commit; eassumption.
      * inversion H; subst; simpl. eapply exit_outside; eassumption.
  - inversion H; subst; simpl. eapply exit_stuck; eassumption.
Qed.
End WhileRule.

(** *** What one run of the loop does to the working list *)

Lemma loop_condition_false (bd : Boundary) (cell : Cell) (ws : list Cell) :
  loop_condition bd cell ws = false ->
  has_overlap cell ws = false /\ is_inside_block cell bd = true.
Proof.
  unfold loop_condition, overlap_with_boundary, is_inside_block.
  intros H. apply orb_false_iff in H as [H1 H2].
  split; [assumption |]. destruct (contains bd cell); [reflexivity | discriminate].
Qed.

Lemma while_loop_post (fuel : nat) (bd : Boundary) (q : Z) (i : nat) (cell0 : Cell)
    (ws0 : list Cell) (r : list Cell * Trace) :
  ws0 !! i = Some cell0 ->
  while_loop fuel bd q i cell0 cell0 [] 0 ws0 = Ok r ->
  loop_post bd q i cell0 ws0 (fst r) (snd r).
Proof.
  intros H0 Hrun.
  pose proof (lookup_lt_Some _ _ _ H0) as Hi.
  eapply (while_loop_rule bd q i cell0
            (fun cell _ _ ws =>
               ws !! i = Some cell /\ length ws = length ws0 /\
               (forall k, k <> i -> ws !! k = ws0 !! k) /\
               (cell = cell0 \/ is_inside_block cell bd = true))
            (loop_post bd q i cell0 ws0)); [ .. | | exact Hrun].
  - intros cell seen n ws (Hc & Hl & Hf & Hin) Hcond.
    apply loop_condition_false in Hcond as [Ho Hb].
    split; [assumption |]. split; [assumption |]. exists cell. cbn [outcome]. auto.
  - intros cell seen n ws d (Hc & Hl & Hf & Hin) _ Hd.
    split; [assumption |]. split; [assumption |].
    exists cell. cbn [outcome]. rewrite Hd. auto.
  - intros cell seen n ws d v (Hc & Hl & Hf & Hin) _ _ _.
    split; [rewrite length_insert; assumption |].
    split; [intros k Hk; rewrite list_lookup_insert_ne by auto; auto |].
    exists cell0. cbn [outcome]. rewrite list_lookup_insert_eq by lia. auto.
  - intros cell seen n ws d v (Hc & Hl & Hf & Hin) _ _ _ _.
    split; [rewrite length_insert; assumption |].
    split; [intros k Hk; rewrite list_lookup_insert_ne by auto; auto |].
    exists cell0. cbn [outcome]. rewrite list_lookup_insert_eq by lia. auto.
  - intros cell seen n ws d v (Hc & Hl & Hf & Hin) _ _ _ Hb.
    split; [rewrite list_lookup_insert_eq by lia; reflexivity |].
    split; [rewrite length_insert; assumption |].
    split; [intros k Hk; rewrite list_lookup_insert_ne by auto; auto |].
    auto.
  - repeat split; auto.
Qed.

(** *** The positions a rectangle can reach *)

Lemma in_zrange (lo hi z : Z) :
  lo <= z <= hi -> In z (zrange lo (Z.to_nat (hi - lo + 1))).
Proof.
  intros H. unfold zrange. apply in_map_iff.
  exists (Z.to_nat (z - lo)). split; [lia |]. apply in_seq. lia.
Qed.

Lemma in_region_pairs (orig c : Cell) (d : Direction) :
  in_region orig c -> In (c, d) (region_pairs orig).
Proof.
  intros (Hw & Hh & Hx & Hy). unfold region_pairs. apply in_prod.
  - unfold region_cells. apply in_map_iff. exists (minx c, miny c). split.
    + destruct c as [x1 y1 x2 y2]; simpl in *. f_equal; lia.
    + apply in_prod; apply in_zrange; assumption.
  - destruct d; simpl; auto.
Qed.

Lemma length_region_pairs (orig : Cell) :
  length (region_pairs orig) = pair_bound orig.
Proof.
  unfold region_pairs, region_cells, zrange, pair_bound, direction_order.
  rewrite length_prod, length_map, length_prod, !length_map, !length_seq.
  simpl. lia.
Qed.

Lemma in_region_start (orig : Cell) : in_region orig orig.
Proof. unfold in_region, x_lo, x_hi, y_lo, y_hi. lia. Qed.

Lemma in_region_move (orig cell : Cell) (d : Direction) (v : Z) :
  in_region orig cell -> 0 <= v -> leading_edge_inside cell d v = true ->
  in_region orig (move cell d v).
Proof.
  unfold in_region, x_lo, x_hi, y_lo, y_hi.
  intros (Hw & Hh & Hx & Hy) Hv He.
  destruct d; simpl in *; apply Z.leb_le in He; lia.
Qed.

Lemma while_loop_trace (fuel : nat) (bd : Boundary) (q : Z) (i : nat) (orig : Cell)
    (ws0 : list Cell) (r : list Cell * Trace) :
  0 <= q ->
  while_loop fuel bd q i orig orig [] 0 ws0 = Ok r ->
  trace_post orig (snd r).
Proof.
  intros Hq Hrun.
  assert (Hlen : forall l : list (Cell * Direction),
             List.NoDup l -> incl l (region_pairs orig) ->
             (length l <= pair_bound orig)%nat).
  { intros l Hn Hi. rewrite <- length_region_pairs.
    apply NoDup_incl_length; assumption. }
  eapply (while_loop_rule bd q i orig
            (fun cell seen n _ =>
               in_region orig cell /\ List.NoDup seen /\
               incl seen (region_pairs orig) /\ n = length seen)
            (fun _ t => trace_post orig t)); [ .. | | exact Hrun].
  - intros cell seen n ws (Hr & Hn & Hi & ->) _.
    repeat split; cbn [visited iterations]; auto; lia.
  - intros cell seen n ws d (Hr & Hn & Hi & ->) _ _.
    repeat split; cbn [visited iterations]; auto; lia.
  - intros cell seen n ws d v (Hr & Hn & Hi & ->) _ _ _.
    repeat split; cbn [visited iterations]; auto; lia.
  - intros cell seen n ws d v (Hr & Hn & Hi & ->) _ _ Hnin _.
    assert (Hn' : List.NoDup ((cell, d) :: seen)).
    { constructor; [| assumption]. rewrite <- list_elem_of_In. assumption. }
    assert (Hi' : incl ((cell, d) :: seen) (region_pairs orig)).
    { intros p [<-|Hp]; [apply in_region_pairs; assumption | auto]. }
    repeat split; cbn [visited iterations]; auto; lia.
  - intros cell seen n ws d v (Hr & Hn & Hi & ->) _ Hd Hnin _.
    apply compute_displacement_finite in Hd as [Hv He].
    split; [apply in_region_move; [assumption | lia | assumption] |].
    split; [constructor; [rewrite <- list_elem_of_In |]; assumption |].
    split; [| reflexivity].
    intros p [<-|Hp]; [apply in_region_pairs; assumption | auto].
  - split; [apply in_region_start |].
    split; [constructor |]. split; [intros p [] | reflexivity].
Qed.

(** *** Termination of the loop *)

Lemma while_loop_fuel_mono (fuel fuel' : nat) (bd : Boundary) (q : Z) (i : nat)
    (orig cell : Cell) (seen : list (Cell * Direction)) (n : nat) (ws : list Cell)
    (r : list Cell * Trace) :
  (fuel <= fuel')%nat ->
  while_loop fuel bd q i orig cell seen n ws = Ok r ->
  while_loop fuel' bd q i orig cell seen n ws = Ok r.
Proof.
  revert fuel' cell seen n ws.
  induction fuel as [|fuel IH]; intros fuel' cell seen n ws Hle H.
  - rewrite while_loop_O in H.
    destruct (loop_condition bd cell ws) eqn:Hc; [discriminate |].
    destruct fuel'; [rewrite while_loop_O | rewrite while_loop_S];
      rewrite Hc; assumption.
  - destruct fuel' as [|fuel']; [lia |].
    rewrite while_loop_S in *.
    destruct (loop_condition bd cell ws); [| assumption].
    destruct (compute_displacement cell bd ws q) as [d [v|]]; [| assumption].
    destruct (bool_decide ((cell, d) ∈ seen)); [assumption |].
    destruct (is_inside_block (move cell d v) bd); [| assumption].
    apply IH; [lia | assumption].
Qed.

Lemma while_loop_terminates (fuel : nat) (bd : Boundary) (q : Z) (i : nat)
    (orig cell : Cell) (seen : list (Cell * Direction)) (n : nat) (ws : list Cell) :
  0 <= q ->
  in_region orig cell ->
  List.NoDup seen ->
  incl seen (region_pairs orig) ->
  (pair_bound orig - length seen < fuel)%nat ->
  exists r, while_loop fuel bd q i orig cell seen n ws = Ok r.
Proof.
  intros Hq. revert cell seen n ws.
  induction fuel as [|fuel IH]; intros cell seen n ws Hr Hn Hi Hf; [lia |].
  rewrite while_loop_S.
  destruct (loop_condition bd cell ws); [| eauto].
  destruct (compute_displacement cell bd ws q) as [d [v|]] eqn:Hd; [| eauto].
  destruct (bool_decide_reflect ((cell, d) ∈ seen)) as [Hin|Hnin]; [eauto |].
  destruct (is_inside_block (move cell d v) bd); [| eauto].
  apply compute_displacement_finite in Hd as [Hv He].
  assert (Hn' : List.NoDup ((cell, d) :: seen)).
  { constructor; [rewrite <- list_elem_of_In |]; assumption. }
  assert (Hi' : incl ((cell, d) :: seen) (region_pairs orig)).
  { intros p [<-|Hp]; [apply in_region_pairs; assumption | auto]. }
  pose proof (NoDup_incl_length Hn' Hi') as Hlen.
  rewrite length_region_pairs in Hlen. simpl in Hlen.
  apply IH; try assumption.
  - apply in_region_move; [assumption | lia | assumption].
  - simpl. lia.
Qed.

(** ** The [for] loop *)

Lemma resolve_cell_frame (fuel : nat) (bd : Boundary) (q : Z) (i : nat)
    (ws : list Cell) (r : list Cell * Trace) :
  resolve_cell fuel bd q i ws = Ok r ->
  length (fst r) = length ws /\ forall k, k <> i -> fst r !! k = ws !! k.
Proof.
  unfold resolve_cell. destruct (ws !! i) as [c|] eqn:Hc; intros H.
  - destruct (while_loop_post _ _ _ _ _ _ _ Hc H) as (Hl & Hf & _). auto.
  - inversion H; subst; simpl. auto.
Qed.

Lemma resolve_cell_fuel_mono (fuel fuel' : nat) (bd : Boundary) (q : Z) (i : nat)
    (ws : list Cell) (r : list Cell * Trace) :
  (fuel <= fuel')%nat ->
  resolve_cell fuel bd q i ws = Ok r -> resolve_cell fuel' bd q i ws = Ok r.
Proof.
  unfold resolve_cell. destruct (ws !! i); [| auto].
  apply while_loop_fuel_mono.
Qed.

Lemma resolve_cell_terminates (fuel : nat) (bd : Boundary) (q : Z) (i : nat)
    (ws : list Cell) :
  0 <= q ->
  (forall c, ws !! i = Some c -> (pair_bound c < fuel)%nat) ->
  exists r, resolve_cell fuel bd q i ws = Ok r.
Proof.
  intros Hq Hf. unfold resolve_cell. destruct (ws !! i) as [c|]; [| eauto].
  apply while_loop_terminates; try assumption.
  - apply in_region_start.
  - constructor.
  - intros p [].
  - specialize (Hf c eq_refl). simpl. lia.
Qed.

Lemma for_enumerate_app (fuel : nat) (bd : Boundary) (q : Z) (idx1 idx2 : list nat)
    (ws : list Cell) :
  for_enumerate fuel bd q (idx1 ++ idx2) ws =
  (r1 <- for_enumerate fuel bd q idx1 ws ;;
   r2 <- for_enumerate fuel bd q idx2 (fst r1) ;;
   Ok (fst r2, snd r1 ++ snd r2)).
Proof.
  revert ws. induction idx1 as [|i idx1 IH]; intros ws; simpl.
  - destruct (for_enumerate fuel bd q idx2 ws) as [[o l]|e]; reflexivity.
  - destruct (resolve_cell fuel bd q i ws) as [r|e]; simpl; [| reflexivity].
    rewrite IH.
    destruct (for_enumerate fuel bd q idx1 (fst r)) as [r1|e]; simpl; [| reflexivity].
    destruct (for_enumerate fuel bd q idx2 (fst r1)) as [r2|e]; reflexivity.
Qed.

Lemma for_enumerate_frame (fuel : nat) (bd : Boundary) (q : Z) (idx : list nat)
    (ws : list Cell) (r : list Cell * list Trace) :
  for_enumerate fuel bd q idx ws = Ok r ->
  length (fst r) = length ws /\ length (snd r) = length idx /\
  forall k, ~ In k idx -> fst r !! k = ws !! k.
Proof.
  revert ws r. induction idx as [|i idx IH]; intros ws r H; simpl in H.
  - inversion H; subst; simpl. auto.
  - apply bind_Ok_inv in H as (r1 & H1 & H).
    apply bind_Ok_inv in H as (r2 & H2 & H). inversion H; subst; simpl.
    destruct (resolve_cell_frame _ _ _ _ _ _ H1) as [Hl1 Hf1].
    destruct (IH _ _ H2) as (Hl2 & Hn2 & Hf2).
    split; [congruence |]. split; [congruence |].
    intros k Hk. rewrite Hf2, Hf1; [reflexivity | |]; intuition.
Qed.

Lemma for_enumerate_fuel_mono (fuel fuel' : nat) (bd : Boundary) (q : Z)
    (idx : list nat) (ws : list Cell) (r : list Cell * list Trace) :
  (fuel <= fuel')%nat ->
  for_enumerate fuel bd q idx ws = Ok r -> for_enumerate fuel' bd q idx ws = Ok r.
Proof.
  intros Hle. revert ws r. induction idx as [|i idx IH]; intros ws r H; simpl in *.
  - assumption.
  - apply bind_Ok_inv in H as (r1 & H1 & H).
    apply bind_Ok_inv in H as (r2 & H2 & H).
    rewrite (resolve_cell_fuel_mono _ _ _ _ _ _ _ Hle H1). simpl.
    rewrite (IH _ _ H2). simpl. assumption.
Qed.

Lemma for_enumerate_terminates (fuel : nat) (bd : Boundary) (q : Z)
    (idx : list nat) (ws : list Cell) :
  0 <= q ->
  List.NoDup idx ->
  (forall i c, In i idx -> ws !! i = Some c -> (pair_bound c < fuel)%nat) ->
  exists r, for_enumerate fuel bd q idx ws = Ok r.
Proof.
  intros Hq. revert ws. induction idx as [|i idx IH]; intros ws Hn Hf; simpl.
  - eauto.
  - inversion Hn as [|? ? Hi Hn']; subst.
    destruct (resolve_cell_terminates fuel bd q i ws Hq) as [r1 H1].
    { intros c Hc. apply (Hf i c); simpl; auto. }
    rewrite H1. simpl.
    destruct (resolve_cell_frame _ _ _ _ _ _ H1) as [_ Hf1].
    destruct (IH (fst r1) Hn') as [r2 H2].
    { intros j c Hj Hc. apply (Hf j c); [simpl; auto |].
      rewrite <- Hf1; [assumption |]. intros ->. contradiction. }
    rewrite H2. simpl. eauto.
Qed.

(** *** The working list at the start of each rectangle's loop *)

Lemma working_set_lookup (i k : nat) (out snapped : list Cell) :
  length out = length snapped -> (i <= length out)%nat ->
  working_set i out snapped !! k =
  if decide (k < i)%nat then out !! k else snapped !! k.
Proof.
  intros Hl Hi. unfold working_set.
  destruct (decide (k < i)%nat) as [Hk|Hk].
  - rewrite lookup_app_l by (rewrite length_take; lia).
    apply lookup_take_lt. assumption.
  - rewrite lookup_app_r by (rewrite length_take; lia).
    rewrite length_take, lookup_drop. f_equal. lia.
Qed.

Lemma working_set_length (i : nat) (out snapped : list Cell) :
  length out = length snapped -> (i <= length out)%nat ->
  length (working_set i out snapped) = length snapped.
Proof.
  intros Hl Hi. unfold working_set.
  rewrite length_app, length_take, length_drop. lia.
Qed.

(** The run of the [for] loop, cut at index [i]: the loop of rectangle [i]
    starts on [working_set i] and leaves [working_set (S i)]. *)
Lemma for_enumerate_at (fuel : nat) (bd : Boundary) (q : Z) (snapped out : list Cell)
    (log : list Trace) (i : nat) :
  for_enumerate fuel bd q (seq 0 (length snapped)) snapped = Ok (out, log) ->
  (i < length snapped)%nat ->
  exists r,
    resolve_cell fuel bd q i (working_set i out snapped) = Ok r /\
    log !! i = Some (snd r) /\
    fst r = working_set (S i) out snapped.
Proof.
  intros H Hi.
  replace (length snapped) with (i + (1 + (length snapped - S i)))%nat in H at 1 by lia.
  rewrite seq_app, seq_app in H. simpl in H.
  rewrite for_enumerate_app in H.
  apply bind_Ok_inv in H as (r1 & H1 & H).
  apply bind_Ok_inv in H as (r2 & H2 & H). inversion H; subst; clear H.
  simpl in H2.
  apply bind_Ok_inv in H2 as (r & Hr & H2).
  apply bind_Ok_inv in H2 as (r3 & H3 & H2). inversion H2; subst; clear H2.
  simpl.
  destruct (for_enumerate_frame _ _ _ _ _ _ H1) as (Hl1 & Hn1 & Hf1).
  destruct (resolve_cell_frame _ _ _ _ _ _ Hr) as (Hlr & Hfr).
  destruct (for_enumerate_frame _ _ _ _ _ _ H3) as (Hl3 & Hn3 & Hf3).
  rewrite length_seq in Hn1.
  assert (Hlen : length (fst r3) = length snapped) by congruence.
  assert (E1 : fst r1 = working_set i (fst r3) snapped).
  { apply list_eq. intros k.
    rewrite working_set_lookup by lia.
    destruct (decide (k < i)%nat) as [Hk|Hk].
    - rewrite Hf3, Hfr; [reflexivity | lia |]. rewrite in_seq. lia.
    - apply Hf1. rewrite in_seq. lia. }
  assert (E2 : fst r = working_set (S i) (fst r3) snapped).
  { apply list_eq. intros k.
    rewrite working_set_lookup by lia.
    destruct (decide (k < S i)%nat) as [Hk|Hk].
    - rewrite Hf3; [reflexivity |]. rewrite in_seq. lia.
    - rewrite Hfr by lia. apply Hf1. rewrite in_seq. lia. }
  exists r. rewrite <- E1. split; [assumption |]. split; [| assumption].
  rewrite lookup_app_r by lia. rewrite Hn1, Nat.sub_diag. reflexivity.
Qed.

(** ** The whole run *)

Lemma resolve_run_inv (fuel : nat) (cells : list Cell) (bd : Boundary) (q : Z)
    (out : list Cell) (log : list Trace) :
  resolve_run fuel cells bd q = Ok (out, log) ->
  exists snapped,
    snap_all cells q = Ok snapped /\
    for_enumerate fuel bd q (seq 0 (length snapped)) snapped = Ok (out, log) /\
    length snapped = length cells /\
    length out = length snapped /\
    length log = length snapped.
Proof.
  unfold resolve_run. intros H.
  apply bind_Ok_inv in H as (snapped & Hs & H).
  exists snapped. split; [assumption |]. split; [assumption |].
  destruct (mapM_Ok_lookup _ _ _ Hs) as [Hl _].
  destruct (for_enumerate_frame _ _ _ _ _ _ H) as (Hl1 & Hl2 & _).
  rewrite length_seq in Hl2. simpl in *. auto.
Qed.

(** What the run did to the rectangle at index [i]: its loop ran on
    [working_set i], where the rectangle still had its snapped position
    [c], and ended with the rectangle at its final position. *)
Lemma resolve_run_at (fuel : nat) (cells : list Cell) (bd : Boundary) (q : Z)
    (snapped out : list Cell) (log : list Trace) (i : nat) (c : Cell) :
  resolve_run fuel cells bd q = Ok (out, log) ->
  snap_all cells q = Ok snapped ->
  snapped !! i = Some c ->
  exists t,
    log !! i = Some t /\
    working_set i out snapped !! i = Some c /\
    resolve_cell fuel bd q i (working_set i out snapped)
      = Ok (working_set (S i) out snapped, t) /\
    loop_post bd q i c (working_set i out snapped) (working_set (S i) out snapped) t /\
    (0 <= q -> trace_post c t).
Proof.
  intros Hrun Hs Hc.
  destruct (resolve_run_inv _ _ _ _ _ _ Hrun) as (s' & Hs' & Hfor & Hl0 & Hl1 & Hl2).
  rewrite Hs in Hs'. inversion Hs'; subst s'; clear Hs'.
  pose proof (lookup_lt_Some _ _ _ Hc) as Hi.
  destruct (for_enumerate_at _ _ _ _ _ _ i Hfor Hi) as ([ws' t] & Hr & Ht & E).
  simpl in Ht, E. subst ws'.
  assert (Hwi : working_set i out snapped !! i = Some c).
  { rewrite working_set_lookup by lia.
    destruct (decide (i < i)%nat); [lia | assumption]. }
  exists t. split; [assumption |]. split; [assumption |]. split; [assumption |].
  unfold resolve_cell in Hr. rewrite Hwi in Hr.
  split.
  - exact (while_loop_post _ _ _ _ _ _ _ Hwi Hr).
  - intros Hq. exact (while_loop_trace _ _ _ _ _ _ _ Hq Hr).
Qed.

Lemma working_set_final (i : nat) (out snapped : list Cell) :
  length out = length snapped -> (i < length out)%nat ->
  working_set (S i) out snapped !! i = out !! i.
Proof.
  intros Hl Hi. rewrite working_set_lookup by lia.
  destruct (decide (i < S i)%nat); [reflexivity | lia].
Qed.

Lemma has_overlap_false (c : Cell) (cells : list Cell) :
  has_overlap c cells = false <->
  forall o, o ∈ cells -> o = c \/ intersects c o = false.
Proof.
  unfold has_overlap, cell_neqb. split.
  - intros H o Ho. apply list_elem_of_In in Ho.
    destruct (decide (o = c)) as [|Hne]; [auto | right].
    destruct (intersects c o) eqn:Hi; [| reflexivity].
    assert (E : existsb (fun other => negb (bool_decide (other = c)) && intersects c other)
                  cells = true).
    { apply existsb_exists. exists o. split; [assumption |].
      rewrite Hi, bool_decide_eq_false_2 by assumption. reflexivity. }
    congruence.
  - intros H. apply not_true_is_false. intros E.
    apply existsb_exists in E as (o & Ho & E).
    apply andb_true_iff in E as [E1 E2].
    apply list_elem_of_In in Ho. destruct (H o Ho) as [->|Hi]; [| congruence].
    rewrite bool_decide_eq_true_2 in E1 by reflexivity. discriminate.
Qed.

Lemma resolve_overlaps_inv (fuel : nat) (cells : list Cell) (bd : Boundary) (q : Z)
    (out : list Cell) :
  resolve_overlaps fuel cells bd q = Ok out ->
  exists log, resolve_run fuel cells bd q = Ok (out, log).
Proof.
  unfold resolve_overlaps. intros H.
  apply bind_Ok_inv in H as ([o log] & Hr & H). inversion H; subst. eauto.
Qed.

(** ** The final set *)

(** C1, as stated: it fails on the three tall rectangles.  The second one is
    moved left by 40 to clear the third, lands on the first, finds no
    direction of finite cost there and is left at that position: it is not
    at its snapped position and it intersects the first rectangle. *)
Lemma legal_or_restored_counterexample :
  exists out snapped,
    resolve_overlaps 10 tall_cells block_boundary GRID_HEIGHT = Ok out /\
    snap_all tall_cells GRID_HEIGHT = Ok snapped /\
    ~ legal_or_restored block_boundary out snapped 1.
Proof.
  exists (fst tall_run), tall_cells.
  split; [vm_compute; reflexivity |]. split; [vm_compute; reflexivity |].
  intros H.
  destruct (H (mkCell 460 0 960 1000) tall_b eq_refl eq_refl) as [[_ Hno]|Heq].
  - specialize (Hno 0%nat tall_a). vm_compute in Hno.
    assert (true = false) by (apply Hno; [discriminate | reflexivity]).
    discriminate.
  - discriminate Heq.
Qed.

(** C1, amended. When [resolve_overlaps] returns, each rectangle of the
    returned set is fully contained in the boundary polygon or equal to its
    snapped position; it may still intersect another rectangle. *)
Theorem final_position_inside_or_snapped (fuel : nat) (cells : list Cell)
    (bd : Boundary) (q : Z) (out snapped : list Cell) (i : nat) (c s : Cell) :
  resolve_overlaps fuel cells bd q = Ok out ->
  snap_all cells q = Ok snapped ->
  out !! i = Some c ->
  snapped !! i = Some s ->
  is_inside_block c bd = true \/ c = s.
Proof.
  intros Hres Hs Hc Hsi.
  destruct (resolve_overlaps_inv _ _ _ _ _ Hres) as [log Hrun].
  destruct (resolve_run_inv _ _ _ _ _ _ Hrun) as (s' & Hs' & _ & _ & Hl & _).
  rewrite Hs in Hs'. inversion Hs'; subst s'; clear Hs'.
  destruct (resolve_run_at _ _ _ _ _ _ _ _ _ Hrun Hs Hsi)
    as (t & _ & _ & _ & (_ & _ & c' & Hc' & Hpos & _) & _).
  rewrite working_set_final in Hc' by (try assumption; apply lookup_lt_Some in Hc; assumption).
  rewrite Hc in Hc'. inversion Hc'; subst c'. tauto.
Qed.

Lemma final_position_inside_or_snapped_witness :
  is_inside_block (mkCell 460 0 960 1000) block_boundary = true \/
  mkCell 460 0 960 1000 = tall_b.
Proof.
  apply (final_position_inside_or_snapped 10 tall_cells block_boundary GRID_HEIGHT
           (fst tall_run) tall_cells 1 (mkCell 460 0 960 1000) tall_b);
    vm_compute; reflexivity.
Defined.

(** C2, as stated: it fails on the three tall rectangles.  The loop of the
    first one exits at once, its condition being false; the second one is
    then moved onto it and stays there, so in the returned set the first
    rectangle intersects the second. *)
Lemma resolved_rectangle_counterexample :
  exists out log t c,
    resolve_run 10 tall_cells block_boundary GRID_HEIGHT = Ok (out, log) /\
    log !! 0%nat = Some t /\ outcome t = Resolved /\
    out !! 0%nat = Some c /\
    ~ (is_inside_block c block_boundary = true /\ intersects_no_other out 0 c).
Proof.
  exists (fst tall_run), (snd tall_run), (mkTrace Resolved [] 0), tall_a.
  split; [vm_compute; reflexivity |]. split; [reflexivity |].
  split; [reflexivity |]. split; [reflexivity |].
  intros [_ Hno].
  specialize (Hno 1%nat (mkCell 460 0 960 1000)). vm_compute in Hno.
  assert (true = false) by (apply Hno; [discriminate | reflexivity]).
  discriminate.
Qed.

(** C2, amended. A rectangle whose loop exits normally is, in the returned
    set, contained in the boundary polygon; it intersects no rectangle at an
    earlier index whose final position differs from its own, and no
    rectangle at a later index whose snapped position differs from its own.
    A later rectangle may still be moved onto it. *)
Theorem resolved_rectangle_final (fuel : nat) (cells : list Cell) (bd : Boundary)
    (q : Z) (out snapped : list Cell) (log : list Trace) (i : nat) (t : Trace) (c : Cell) :
  resolve_run fuel cells bd q = Ok (out, log) ->
  snap_all cells q = Ok snapped ->
  log !! i = Some t ->
  outcome t = Resolved ->
  out !! i = Some c ->
  is_inside_block c bd = true /\
  (forall j o, (j < i)%nat -> out !! j = Some o -> o = c \/ intersects c o = false) /\
  (forall j o, (i < j)%nat -> snapped !! j = Some o -> o = c \/ intersects c o = false).
Proof.
  intros Hrun Hs Ht Ho Hc.
  destruct (resolve_run_inv _ _ _ _ _ _ Hrun) as (s' & Hs' & _ & _ & Hl & _).
  rewrite Hs in Hs'. inversion Hs'; subst s'; clear Hs'.
  pose proof (lookup_lt_Some _ _ _ Hc) as Hi.
  destruct (lookup_lt_is_Some_2 snapped i) as [s Hsi]; [lia |].
  destruct (resolve_run_at _ _ _ _ _ _ _ _ _ Hrun Hs Hsi)
    as (t' & Ht' & _ & _ & (_ & _ & c' & Hc' & _ & Hout) & _).
  rewrite Ht in Ht'. inversion Ht'; subst t'; clear Ht'.
  rewrite working_set_final in Hc' by assumption.
  rewrite Hc in Hc'. inversion Hc'; subst c'; clear Hc'.
  rewrite Ho in Hout. destruct Hout as [Hov Hin].
  split; [assumption |].
  rewrite has_overlap_false in Hov.
  split; intros j o Hj Hjo; apply Hov; apply (list_elem_of_lookup_2 _ j);
    rewrite working_set_lookup by lia;
    destruct (decide (j < S i)%nat); first [assumption | lia].
Qed.

Lemma resolved_rectangle_final_witness :
  is_inside_block tall_a block_boundary = true /\
  (forall j o, (j < 0)%nat -> fst tall_run !! j = Some o ->
     o = tall_a \/ intersects tall_a o = false) /\
  (forall j o, (0 < j)%nat -> tall_cells !! j = Some o ->
     o = tall_a \/ intersects tall_a o = false).
Proof.
  apply (resolved_rectangle_final 10 tall_cells block_boundary GRID_HEIGHT
           (fst tall_run) tall_cells (snd tall_run) 0 (mkTrace Resolved [] 0) tall_a);
    vm_compute; reflexivity.
Defined.

(** C3. A rectangle that is reverted, on a repeated (bounds, direction) pair
    or on a move that leaves the boundary polygon, has in the returned set
    exactly the position it had after the grid snap. *)
Theorem reverted_rectangle_is_at_snapped_position (fuel : nat) (cells : list Cell)
    (bd : Boundary) (q : Z) (out snapped : list Cell) (log : list Trace)
    (i : nat) (t : Trace) :
  resolve_run fuel cells bd q = Ok (out, log) ->
  snap_all cells q = Ok snapped ->
  log !! i = Some t ->
  outcome t = Reverted ->
  exists c, snapped !! i = Some c /\ out !! i = Some c.
Proof.
  intros Hrun Hs Ht Ho.
  destruct (resolve_run_inv _ _ _ _ _ _ Hrun) as (s' & Hs' & _ & _ & Hl & Hl').
  rewrite Hs in Hs'. inversion Hs'; subst s'; clear Hs'.
  pose proof (lookup_lt_Some _ _ _ Ht) as Hi.
  destruct (lookup_lt_is_Some_2 snapped i) as [s Hsi]; [lia |].
  destruct (resolve_run_at _ _ _ _ _ _ _ _ _ Hrun Hs Hsi)
    as (t' & Ht' & _ & _ & (_ & _ & c' & Hc' & _ & Hout) & _).
  rewrite Ht in Ht'. inversion Ht'; subst t'; clear Ht'.
  rewrite working_set_final in Hc' by lia.
  rewrite Ho in Hout. subst c'. eauto.
Qed.

Lemma reverted_rectangle_is_at_snapped_position_witness :
  exists c, fixture_snapped !! 1%nat = Some c /\ fst fixture_run !! 1%nat = Some c.
Proof.
  apply (reverted_rectangle_is_at_snapped_position 10 standard_cells block_boundary
           GRID_HEIGHT (fst fixture_run) fixture_snapped (snd fixture_run) 1
           (mkTrace Reverted
              [(mkCell 100 60 220 120, Right); (mkCell 140 60 260 120, Left)] 3));
    vm_compute; reflexivity.
Defined.

(** ** Termination of the engine *)

Lemma pair_bound_lt_enough_fuel (snapped : list Cell) (i : nat) (c : Cell) :
  snapped !! i = Some c -> (pair_bound c < enough_fuel snapped)%nat.
Proof.
  unfold enough_fuel. revert i.
  induction snapped as [|a l IH]; intros i H; [destruct i; discriminate |].
  destruct i as [|i]; simpl in *.
  - inversion H; subst. lia.
  - specialize (IH i H). lia.
Qed.

(** C5. For a positive quantum [resolve_overlaps] terminates: there is a
    result that every run with enough fuel returns.  The loop of each
    rectangle enters its body at most once more than there are pairs in its
    memo set, those pairs are distinct, and there are at most [pair_bound]
    of them, whatever the other rectangles and the boundary are. *)
Theorem resolve_overlaps_terminates (cells : list Cell) (bd : Boundary) (q : Z) :
  0 < q ->
  exists snapped out log,
    snap_all cells q = Ok snapped /\
    (forall fuel, (enough_fuel snapped <= fuel)%nat ->
       resolve_run fuel cells bd q = Ok (out, log) /\
       resolve_overlaps fuel cells bd q = Ok out) /\
    length out = length cells /\
    forall i c, snapped !! i = Some c ->
      exists t, log !! i = Some t /\
        List.NoDup (visited t) /\
        (iterations t <= S (length (visited t)))%nat /\
        (length (visited t) <= pair_bound c)%nat.
Proof.
  intros Hq.
  destruct (snap_all_total cells q Hq) as [snapped Hs].
  destruct (for_enumerate_terminates (enough_fuel snapped) bd q
              (seq 0 (length snapped)) snapped) as [[out log] Hfor].
  { lia. }
  { apply seq_NoDup. }
  { intros i c _ Hc. eapply pair_bound_lt_enough_fuel; eassumption. }
  assert (Hrun : forall fuel, (enough_fuel snapped <= fuel)%nat ->
                   resolve_run fuel cells bd q = Ok (out, log)).
  { intros fuel Hf. unfold resolve_run. rewrite Hs. simpl.
    eapply for_enumerate_fuel_mono; eassumption. }
  exists snapped, out, log. split; [assumption |].
  split.
  { intros fuel Hf. split; [auto |].
    unfold resolve_overlaps. rewrite (Hrun fuel Hf). reflexivity. }
  specialize (Hrun _ (Nat.le_refl _)).
  destruct (resolve_run_inv _ _ _ _ _ _ Hrun) as (s' & Hs' & _ & Hl0 & Hl1 & _).
  rewrite Hs in Hs'. inversion Hs'; subst s'; clear Hs'.
  split; [congruence |].
  intros i c Hc.
  destruct (resolve_run_at _ _ _ _ _ _ _ _ _ Hrun Hs Hc)
    as (t & Ht & _ & _ & _ & Htr).
  destruct (Htr ltac:(lia)) as (Hn & _ & Hit & Hlen).
  exists t. auto.
Qed.

Lemma resolve_overlaps_terminates_witness :
  exists snapped out log,
    snap_all tall_cells GRID_HEIGHT = Ok snapped /\
    (forall fuel, (enough_fuel snapped <= fuel)%nat ->
       resolve_run fuel tall_cells block_boundary GRID_HEIGHT = Ok (out, log) /\
       resolve_overlaps fuel tall_cells block_boundary GRID_HEIGHT = Ok out) /\
    length out = length tall_cells /\
    forall i c, snapped !! i = Some c ->
      exists t, log !! i = Some t /\
        List.NoDup (visited t) /\
        (iterations t <= S (length (visited t)))%nat /\
        (length (visited t) <= pair_bound c)%nat.
Proof.
  apply (resolve_overlaps_terminates tall_cells block_boundary GRID_HEIGHT).
  reflexivity.
Defined.

(** ** Rectangles without overlap *)

Lemma no_overlap_no_others (c : Cell) (ws : list Cell) :
  has_overlap c ws = false -> intersecting_others c ws = [].
Proof.
  unfold has_overlap, intersecting_others.
  induction ws as [|o ws IH]; simpl; [reflexivity |].
  intros H. apply orb_false_iff in H as [H1 H2]. rewrite H1. auto.
Qed.

Lemma compute_displacement_no_overlap (c : Cell) (bd : Boundary) (ws : list Cell) (q : Z) :
  has_overlap c ws = false -> compute_displacement c bd ws q = (Left, Inf).
Proof.
  intros H. rewrite compute_displacement_eq_spec.
  unfold displacement_spec, first_minimal, direction_cost.
  rewrite (no_overlap_no_others _ _ H). reflexivity.
Qed.

(** The loop of a rectangle that has no overlap: it exits at once when the
    rectangle is inside the boundary, and at the first test of the cost when
    it is not.  The working list is left as it was. *)
Lemma resolve_cell_overlap_free (fuel : nat) (bd : Boundary) (q : Z) (k : nat)
    (ws : list Cell) (c : Cell) :
  ws !! k = Some c ->
  has_overlap c ws = false ->
  resolve_cell (S fuel) bd q k ws =
  Ok (ws, if is_inside_block c bd then mkTrace Resolved [] 0 else mkTrace Stuck [] 1).
Proof.
  intros Hk Hov. unfold resolve_cell. rewrite Hk, while_loop_S.
  unfold loop_condition, overlap_with_boundary, is_inside_block. rewrite Hov.
  rewrite (compute_displacement_no_overlap _ _ _ _ Hov).
  destruct (contains bd c); reflexivity.
Qed.

(** In a run, a rectangle that has no overlap when its loop starts keeps its
    snapped position. *)
Lemma overlap_free_untouched (fuel : nat) (cells : list Cell) (bd : Boundary) (q : Z)
    (snapped out : list Cell) (log : list Trace) (i : nat) (c : Cell) :
  resolve_run fuel cells bd q = Ok (out, log) ->
  snap_all cells q = Ok snapped ->
  snapped !! i = Some c ->
  has_overlap c (working_set i out snapped) = false ->
  out !! i = Some c /\
  log !! i = Some (if is_inside_block c bd then mkTrace Resolved [] 0
                   else mkTrace Stuck [] 1).
Proof.
  intros Hrun Hs Hc Hov.
  destruct (resolve_run_inv _ _ _ _ _ _ Hrun) as (s' & Hs' & _ & _ & Hl & _).
  rewrite Hs in Hs'. inversion Hs'; subst s'; clear Hs'.
  pose proof (lookup_lt_Some _ _ _ Hc) as Hi.
  destruct (resolve_run_at _ _ _ _ _ _ _ _ _ Hrun Hs Hc)
    as (t & Ht & Hwi & Hr & _ & _).
  apply (resolve_cell_fuel_mono fuel (S fuel)) in Hr; [| lia].
  rewrite (resolve_cell_overlap_free _ _ _ _ _ _ Hwi Hov) in Hr.
  inversion Hr as [[E Et]]. split; [| rewrite Et; assumption].
  rewrite <- (working_set_final i out snapped) by lia.
  rewrite <- E. assumption.
Qed.

(** C9, as stated: it fails on the chain of three rectangles.  After
    snapping, the third one intersects no other rectangle and is not
    contained in the boundary.  But the first rectangle is moved left by 40
    to clear the second, lands on the third and stays there, no direction
    having a finite cost; when the loop of the third rectangle starts it
    overlaps the first, and it is moved right by 960. *)
Lemma overlap_free_after_snapping_counterexample :
  exists c t,
    snap_all chain_cells GRID_HEIGHT = Ok chain_snapped /\
    resolve_run 10 chain_cells block_boundary GRID_HEIGHT = Ok chain_run /\
    chain_snapped !! 2%nat = Some c /\
    has_overlap c chain_snapped = false /\
    is_inside_block c block_boundary = false /\
    snd chain_run !! 2%nat = Some t /\
    outcome t = Resolved /\ visited t = [(c, Right)] /\ iterations t = 1%nat /\
    fst chain_run !! 2%nat = Some (translate c 960 0) /\
    fst chain_run !! 2%nat <> Some c.
Proof.
  exists (mkCell 20 40 30 1010), (mkTrace Resolved [(mkCell 20 40 30 1010, Right)] 1).
  repeat (split; [vm_compute; reflexivity |]).
  vm_compute. discriminate.
Qed.

(** C9, amended. A cell that intersects no other cell of the working list
    gets an infinite cost.  So the loop of a rectangle that has no overlap
    and is not contained in the boundary polygon leaves in its first
    iteration, with nothing in its memo set and the working list as it was;
    and in a run, a rectangle that is free of overlap when its loop starts
    (against the final positions of the rectangles before it and the
    snapped positions of the others), and not contained in the boundary,
    is returned at its snapped position. *)
Theorem overlap_free_rectangle_is_not_moved (fuel : nat) (cells : list Cell)
    (bd : Boundary) (q : Z) (snapped out : list Cell) (log : list Trace)
    (i : nat) (c : Cell) :
  resolve_run fuel cells bd q = Ok (out, log) ->
  snap_all cells q = Ok snapped ->
  snapped !! i = Some c ->
  has_overlap c (working_set i out snapped) = false ->
  (forall ws, has_overlap c ws = false -> snd (compute_displacement c bd ws q) = Inf) /\
  (forall fuel' k ws, ws !! k = Some c -> has_overlap c ws = false ->
     is_inside_block c bd = false ->
     resolve_cell (S fuel') bd q k ws = Ok (ws, mkTrace Stuck [] 1)) /\
  (is_inside_block c bd = false ->
     log !! i = Some (mkTrace Stuck [] 1) /\ out !! i = Some c).
Proof.
  intros Hrun Hs Hc Hov. split; [| split].
  - intros ws Hws. rewrite (compute_displacement_no_overlap _ _ _ _ Hws). reflexivity.
  - intros fuel' k ws Hk Hws Hb.
    rewrite (resolve_cell_overlap_free _ _ _ _ _ _ Hk Hws), Hb. reflexivity.
  - intros Hb.
    destruct (overlap_free_untouched _ _ _ _ _ _ _ _ _ Hrun Hs Hc Hov) as [Ho Hl].
    rewrite Hb in Hl. auto.
Qed.

Lemma overlap_free_rectangle_is_not_moved_witness :
  (forall ws, has_overlap strip_cell ws = false ->
     snd (compute_displacement strip_cell block_boundary ws GRID_HEIGHT) = Inf) /\
  (forall fuel' k ws, ws !! k = Some strip_cell -> has_overlap strip_cell ws = false ->
     is_inside_block strip_cell block_boundary = false ->
     resolve_cell (S fuel') block_boundary GRID_HEIGHT k ws
       = Ok (ws, mkTrace Stuck [] 1)) /\
  (is_inside_block strip_cell block_boundary = false ->
     [mkTrace Stuck [] 1] !! 0%nat = Some (mkTrace Stuck [] 1) /\
     [strip_cell] !! 0%nat = Some strip_cell).
Proof.
  apply (overlap_free_rectangle_is_not_moved 1 [strip_cell] block_boundary GRID_HEIGHT
           [strip_cell] [strip_cell] [mkTrace Stuck [] 1] 0 strip_cell);
    vm_compute; reflexivity.
Defined.

(** ** Coincident rectangles *)

Lemma pair_overlap_free (ws : list Cell) (i j : nat) (c : Cell) :
  ws !! i = Some c -> ws !! j = Some c ->
  (forall k o, k <> i -> k <> j -> ws !! k = Some o ->
     o = c \/ intersects c o = false) ->
  has_overlap c ws = false.
Proof.
  intros Hi Hj Hk. apply has_overlap_false. intros o Ho.
  apply list_elem_of_lookup_1 in Ho as [k Ho].
  destruct (decide (k = i)) as [->|Hki]; [left; congruence |].
  destruct (decide (k = j)) as [->|Hkj]; [left; congruence |].
  eauto.
Qed.

Lemma coincident_in_order (fuel : nat) (cells : list Cell) (bd : Boundary) (q : Z)
    (snapped out : list Cell) (log : list Trace) (i j : nat) (c : Cell) :
  resolve_run fuel cells bd q = Ok (out, log) ->
  snap_all cells q = Ok snapped ->
  (i < j)%nat ->
  snapped !! i = Some c -> snapped !! j = Some c ->
  (forall k o, k <> i -> k <> j -> working_set i out snapped !! k = Some o ->
     o = c \/ intersects c o = false) ->
  (forall k o, k <> i -> k <> j -> working_set j out snapped !! k = Some o ->
     o = c \/ intersects c o = false) ->
  has_overlap c (working_set i out snapped) = false /\
  has_overlap c (working_set j out snapped) = false /\
  out !! i = Some c /\ out !! j = Some c.
Proof.
  intros Hrun Hs Hij Hi Hj Hki Hkj.
  destruct (resolve_run_inv _ _ _ _ _ _ Hrun) as (s' & Hs' & _ & _ & Hl & _).
  rewrite Hs in Hs'. inversion Hs'; subst s'; clear Hs'.
  pose proof (lookup_lt_Some _ _ _ Hj) as Hjlt.
  assert (H1 : has_overlap c (working_set i out snapped) = false).
  { apply (pair_overlap_free _ i j); [| | assumption];
      rewrite working_set_lookup by lia;
      match goal with |- context [decide ?P] => destruct (decide P) end;
      first [assumption | lia]. }
  destruct (overlap_free_untouched _ _ _ _ _ _ _ _ _ Hrun Hs Hi H1) as [Hoi _].
  assert (H2 : has_overlap c (working_set j out snapped) = false).
  { apply (pair_overlap_free _ i j); [| | assumption];
      rewrite working_set_lookup by lia;
      match goal with |- context [decide ?P] => destruct (decide P) end;
      first [assumption | lia]. }
  destruct (overlap_free_untouched _ _ _ _ _ _ _ _ _ Hrun Hs Hj H2) as [Hoj _].
  auto.
Qed.

(** C10. [has_overlap] and [compute_displacement] leave out the rectangles
    that are equal in value to the cell, whatever their index: [has_overlap]
    is false exactly when every rectangle of the list either equals the cell
    or does not intersect it, and then no direction has a finite cost.  Two
    rectangles at different indices with the same snapped position, which do
    intersect each other, are therefore not seen as overlapping: when no
    third rectangle overlaps them as their loops start, [has_overlap] is
    false for both and the returned set holds both at the same position. *)
Theorem coincident_rectangles_stay_coincident (fuel : nat) (cells : list Cell)
    (bd : Boundary) (q : Z) (snapped out : list Cell) (log : list Trace)
    (i j : nat) (c : Cell) :
  resolve_run fuel cells bd q = Ok (out, log) ->
  snap_all cells q = Ok snapped ->
  i <> j ->
  snapped !! i = Some c -> snapped !! j = Some c ->
  (forall k o, k <> i -> k <> j -> working_set i out snapped !! k = Some o ->
     o = c \/ intersects c o = false) ->
  (forall k o, k <> i -> k <> j -> working_set j out snapped !! k = Some o ->
     o = c \/ intersects c o = false) ->
  (forall ws, has_overlap c ws = false <->
     forall o, o ∈ ws -> o = c \/ intersects c o = false) /\
  (forall ws, has_overlap c ws = false ->
     compute_displacement c bd ws q = (Left, Inf)) /\
  (minx c <= maxx c -> miny c <= maxy c -> intersects c c = true) /\
  has_overlap c (working_set i out snapped) = false /\
  has_overlap c (working_set j out snapped) = false /\
  out !! i = Some c /\ out !! j = Some c.
Proof.
  intros Hrun Hs Hij Hi Hj Hki Hkj.
  assert (H : has_overlap c (working_set i out snapped) = false /\
              has_overlap c (working_set j out snapped) = false /\
              out !! i = Some c /\ out !! j = Some c).
  { destruct (Nat.lt_total i j) as [Hlt|[Heq|Hgt]]; [| contradiction |].
    - eapply coincident_in_order; eassumption.
    - destruct (coincident_in_order fuel cells bd q snapped out log j i c)
        as (A & B & C & D); eauto. }
  split; [intros ws; apply has_overlap_false |].
  split; [intros ws; apply compute_displacement_no_overlap |].
  split; [| exact H].
  intros Hx Hy. unfold intersects. rewrite !andb_true_iff, !Z.leb_le. lia.
Qed.

Lemma coincident_rectangles_stay_coincident_witness :
  (forall ws, has_overlap twin ws = false <->
     forall o, o ∈ ws -> o = twin \/ intersects twin o = false) /\
  (forall ws, has_overlap twin ws = false ->
     compute_displacement twin block_boundary ws GRID_HEIGHT = (Left, Inf)) /\
  (minx twin <= maxx twin -> miny twin <= maxy twin -> intersects twin twin = true) /\
  has_overlap twin (working_set 0 [twin; twin] [twin; twin]) = false /\
  has_overlap twin (working_set 1 [twin; twin] [twin; twin]) = false /\
  [twin; twin] !! 0%nat = Some twin /\ [twin; twin] !! 1%nat = Some twin.
Proof.
  apply (coincident_rectangles_stay_coincident 1 [twin; twin] block_boundary GRID_HEIGHT
           [twin; twin] [twin; twin]
           [mkTrace Resolved [] 0; mkTrace Resolved [] 0] 0 1 twin);
    try (vm_compute; reflexivity).
  - lia.
  - intros [|[|k]] o H0 H1 H; [lia | lia | discriminate H].
  - intros [|[|k]] o H0 H1 H; [lia | lia | discriminate H].
Defined.

(** ** The caller's list *)

(** The loops on the list object do to its content what the loops on a
    threaded list do, and touch no other object. *)
Lemma insert_lookup_total_id (h : heap) (u : nat) :
  is_Some (h !! u) -> <[u := h !!! u]> h = h.
Proof.
  intros [l Hl]. rewrite (lookup_total_correct _ _ _ Hl). apply insert_id. assumption.
Qed.

Lemma while_loop_obj_sim (fuel : nat) (bd : Boundary) (q : Z) (u i : nat)
    (orig cell : Cell) (seen : list (Cell * Direction)) (n : nat) (h : heap) :
  is_Some (h !! u) ->
  while_loop_obj fuel bd q u i orig cell seen n h =
  (r <- while_loop fuel bd q i orig cell seen n (h !!! u) ;;
   Ok (<[u := fst r]> h, snd r)).
Proof.
  revert cell seen n h.
  induction fuel as [|fuel IH]; intros cell seen n h Hu;
    cbn [while_loop_obj while_loop];
    destruct (has_overlap cell (h !!! u) || overlap_with_boundary cell bd);
    cbn [bind fst snd]; try reflexivity;
    try (rewrite insert_lookup_total_id by assumption; reflexivity).
  destruct (compute_displacement cell bd (h !!! u) q) as [d [v|]];
    cbn [bind fst snd];
    [| rewrite insert_lookup_total_id by assumption; reflexivity].
  destruct (bool_decide ((cell, d) ∈ seen)); cbn [bind fst snd]; [reflexivity |].
  destruct (negb (is_inside_block (move cell d v) bd)); cbn [bind fst snd];
    [reflexivity |].
  unfold list_setitem. rewrite IH by (rewrite lookup_insert_eq; eauto).
  rewrite lookup_total_insert_eq.
  destruct (while_loop fuel bd q i orig (move cell d v) ((cell, d) :: seen) (S n)
              (<[i := move cell d v]> (h !!! u))) as [r|e];
    cbn [bind fst snd]; [| reflexivity].
  rewrite insert_insert_eq. reflexivity.
Qed.

Lemma for_enumerate_obj_sim (fuel : nat) (bd : Boundary) (q : Z) (u : nat)
    (idx : list nat) (h : heap) :
  is_Some (h !! u) ->
  for_enumerate_obj fuel bd q u idx h =
  (r <- for_enumerate fuel bd q idx (h !!! u) ;;
   Ok (<[u := fst r]> h, snd r)).
Proof.
  revert h. induction idx as [|i idx IH]; intros h Hu;
    cbn [for_enumerate_obj for_enumerate bind fst snd].
  - rewrite insert_lookup_total_id by assumption. reflexivity.
  - unfold resolve_cell_obj, resolve_cell.
    destruct ((h !!! u) !! i) as [c|]; cbn [bind fst snd].
    + rewrite while_loop_obj_sim by assumption.
      destruct (while_loop fuel bd q i c c [] 0 (h !!! u)) as [r|e];
        cbn [bind fst snd]; [| reflexivity].
      rewrite IH by (rewrite lookup_insert_eq; eauto).
      rewrite lookup_total_insert_eq.
      destruct (for_enumerate fuel bd q idx (fst r)) as [r'|e];
        cbn [bind fst snd]; [| reflexivity].
      rewrite insert_insert_eq. reflexivity.
    + rewrite IH by assumption.
      destruct (for_enumerate fuel bd q idx (h !!! u)) as [r'|e];
        cbn [bind fst snd]; reflexivity.
Qed.

(** C8, as stated: it fails.  After the call on the two overlapping
    rectangles of the fixture, the list the caller passed still holds the
    rectangles it held before; the final positions are in another list,
    the one the call returns. *)
Lemma caller_list_counterexample :
  exists ref h' out,
    resolve_overlaps_call 10 0 block_boundary GRID_HEIGHT {[ 0%nat := pair_cells ]}
      = Ok (ref, h') /\
    resolve_overlaps 10 pair_cells block_boundary GRID_HEIGHT = Ok out /\
    h' !! ref = Some out /\
    h' !! 0%nat = Some pair_cells /\
    h' !! 0%nat <> Some out.
Proof.
  exists 1%nat,
    (<[1%nat := [mkCell 20 40 120 80; mkCell 140 60 260 120]]> {[ 0%nat := pair_cells ]}),
    [mkCell 20 40 120 80; mkCell 140 60 260 120].
  split; [vm_compute; reflexivity |]. split; [vm_compute; reflexivity |].
  split; [vm_compute; reflexivity |]. split; [vm_compute; reflexivity |].
  vm_compute. discriminate.
Qed.

(** C8, amended. [resolve_overlaps] does not mutate the list it is given:
    it builds a new list of the snapped rectangles, mutates that list in
    place and returns it.  After the call the caller's list holds what it
    held before, every other list that existed is unchanged, and the final
    positions are in the returned list, which did not exist before. *)
Theorem resolve_overlaps_leaves_input_list (fuel : nat) (cells : nat) (bd : Boundary)
    (q : Z) (h h' : heap) (input : list Cell) (ref : nat) :
  h !! cells = Some input ->
  resolve_overlaps_call fuel cells bd q h = Ok (ref, h') ->
  ref <> cells /\
  h !! ref = None /\
  h' !! cells = Some input /\
  (forall l, l <> ref -> h' !! l = h !! l) /\
  exists out, resolve_overlaps fuel input bd q = Ok out /\ h' !! ref = Some out.
Proof.
  intros Hin Hcall. unfold resolve_overlaps_call in Hcall.
  rewrite (lookup_total_correct _ _ _ Hin) in Hcall.
  apply bind_Ok_inv in Hcall as (snapped & Hs & Hcall).
  unfold new_list in Hcall.
  set (u := fresh (dom h)) in *.
  assert (Hu : h !! u = None).
  { apply not_elem_of_dom. apply is_fresh. }
  rewrite for_enumerate_obj_sim in Hcall by (rewrite lookup_insert_eq; eauto).
  rewrite lookup_total_insert_eq in Hcall.
  apply bind_Ok_inv in Hcall as (r' & Hr' & Hcall).
  apply bind_Ok_inv in Hr' as (r & Hr & Hr').
  inversion Hr'; subst r'; clear Hr'.
  inversion Hcall; subst; clear Hcall. simpl.
  assert (Hne : u <> cells) by (intros ->; congruence).
  split; [assumption |]. split; [assumption |].
  split; [rewrite !lookup_insert_ne by assumption; assumption |].
  split; [intros l Hl; rewrite !lookup_insert_ne by auto; reflexivity |].
  exists (fst r). split; [| apply lookup_insert_eq].
  unfold resolve_overlaps, resolve_run. rewrite Hs. simpl. rewrite Hr. reflexivity.
Qed.

Lemma resolve_overlaps_leaves_input_list_witness :
  (1 <> 0)%nat /\
  ({[ 0%nat := pair_cells ]} : heap) !! 1%nat = None /\
  (<[1%nat := [mkCell 20 40 120 80; mkCell 140 60 260 120]]>
     ({[ 0%nat := pair_cells ]} : heap)) !! 0%nat = Some pair_cells /\
  (forall l, l <> 1%nat ->
     (<[1%nat := [mkCell 20 40 120 80; mkCell 140 60 260 120]]>
        ({[ 0%nat := pair_cells ]} : heap)) !! l
     = ({[ 0%nat := pair_cells ]} : heap) !! l) /\
  exists out,
    resolve_overlaps 10 pair_cells block_boundary GRID_HEIGHT = Ok out /\
    (<[1%nat := [mkCell 20 40 120 80; mkCell 140 60 260 120]]>
       ({[ 0%nat := pair_cells ]} : heap)) !! 1%nat = Some out.
Proof.
  apply (resolve_overlaps_leaves_input_list 10 0 block_boundary GRID_HEIGHT
           {[ 0%nat := pair_cells ]}
           (<[1%nat := [mkCell 20 40 120 80; mkCell 140 60 260 120]]>
              {[ 0%nat := pair_cells ]})
           pair_cells 1);
    vm_compute; reflexivity.
Defined.

(** * Further properties of the code *)

(** ** Rounding in [snap_to_grid] *)

Lemma round_half_even_near (a q : Z) :
  0 < q -> 2 * Z.abs (round_half_even a q * q - a) <= q.
Proof.
  intros Hq. unfold round_half_even.
  pose proof (Z.div_mod a q ltac:(lia)) as Hdm.
  pose proof (Z.mod_pos_bound a q Hq) as Hr.
  destruct (Z.ltb_spec (2 * (a mod q)) q); [lia |].
  destruct (Z.ltb_spec q (2 * (a mod q))); [lia |].
  destruct (Z.even (a / q)); lia.
Qed.


Lemma round_half_even_opp (a q : Z) :
  0 < q -> round_half_even (- a) q = - round_half_even a q.
Proof.
  intros Hq. unfold round_half_even.
  pose proof (Z.mod_pos_bound a q Hq) as Hr.
  destruct (Z.eq_dec (a mod q) 0) as [Hz|Hnz].
  - rewrite Z.div_opp_l_z, Z.mod_opp_l_z by lia. rewrite Hz.
    destruct (Z.ltb_spec (2 * 0) q); [reflexivity | lia].
  - rewrite Z.div_opp_l_nz, Z.mod_opp_l_nz by lia.
    destruct (Z.ltb_spec (2 * (a mod q)) q), (Z.ltb_spec q (2 * (a mod q)));
      destruct (Z.ltb_spec (2 * (q - a mod q)) q), (Z.ltb_spec q (2 * (q - a mod q)));
      try lia.
    replace (- (a / q) - 1) with (- (a / q + 1)) by lia.
    rewrite Z.even_opp, Z.even_add.
    destruct (Z.even (a / q)); simpl; lia.
Qed.

Lemma nearest_multiple (a g q k : Z) :
  0 < q -> Z.divide q g -> 2 * Z.abs (g - a) <= q ->
  Z.abs (g - a) <= Z.abs (k * q - a).
Proof.
  intros Hq [j ->] Hd.
  destruct (Z.eq_dec k j) as [->|Hne]; [lia |].
  assert (H : q <= (k - j) * q \/ (k - j) * q <= - q) by nia.
  replace (k * q - a) with ((k - j) * q + (j * q - a)) by lia.
  lia.
Qed.

(** X1. For a positive grid size [snap_to_grid] moves a rectangle rigidly to
    a nearest grid point: the width and the height are kept, the new
    lower-left corner is on the grid, it is at most half a grid size away
    from the old one on each axis, and no grid line is closer to the old
    coordinate than the one chosen. *)
Theorem snap_to_grid_nearest (r r' : Cell) (q : Z) :
  0 < q ->
  snap_to_grid r q = Ok r' ->
  width r' = width r /\ height r' = height r /\
  Z.divide q (minx r') /\ Z.divide q (miny r') /\
  2 * Z.abs (minx r' - minx r) <= q /\
  2 * Z.abs (miny r' - miny r) <= q /\
  (forall k, Z.abs (minx r' - minx r) <= Z.abs (k * q - minx r)) /\
  (forall k, Z.abs (miny r' - miny r) <= Z.abs (k * q - miny r)).
Proof.
  intros Hq H.
  destruct (snap_to_grid_corner _ _ _ Hq H) as (Hx & Hy & Hw & Hh).
  pose proof (round_half_even_near (minx r) q Hq) as Nx.
  pose proof (round_half_even_near (miny r) q Hq) as Ny.
  assert (Dx : Z.divide q (minx r')) by (rewrite Hx; apply Z.divide_factor_r).
  assert (Dy : Z.divide q (miny r')) by (rewrite Hy; apply Z.divide_factor_r).
  rewrite <- Hx in Nx. rewrite <- Hy in Ny.
  unfold width, height.
  split; [assumption |]. split; [assumption |].
  split; [assumption |]. split; [assumption |].
  split; [assumption |]. split; [assumption |].
  split; intros k; apply nearest_multiple; assumption.
Qed.

Lemma snap_to_grid_nearest_witness :
  width (mkCell 240 100 360 140) = width (mkCell 250 100 370 140) /\
  height (mkCell 240 100 360 140) = height (mkCell 250 100 370 140) /\
  Z.divide GRID_HEIGHT (minx (mkCell 240 100 360 140)) /\
  Z.divide GRID_HEIGHT (miny (mkCell 240 100 360 140)) /\
  2 * Z.abs (minx (mkCell 240 100 360 140) - minx (mkCell 250 100 370 140)) <= GRID_HEIGHT /\
  2 * Z.abs (miny (mkCell 240 100 360 140) - miny (mkCell 250 100 370 140)) <= GRID_HEIGHT /\
  (forall k, Z.abs (minx (mkCell 240 100 360 140) - minx (mkCell 250 100 370 140))
             <= Z.abs (k * GRID_HEIGHT - minx (mkCell 250 100 370 140))) /\
  (forall k, Z.abs (miny (mkCell 240 100 360 140) - miny (mkCell 250 100 370 140))
             <= Z.abs (k * GRID_HEIGHT - miny (mkCell 250 100 370 140))).
Proof.
  apply (snap_to_grid_nearest (mkCell 250 100 370 140) (mkCell 240 100 360 140) GRID_HEIGHT);
    reflexivity.
Defined.



(** X3. A negative grid size snaps exactly as its absolute value does. *)
Theorem snap_to_grid_negative_grid (r : Cell) (q : Z) :
  0 < q -> snap_to_grid r (- q) = snap_to_grid r q.
Proof.
  intros Hq. rewrite (snap_to_grid_positive r q Hq).
  unfold snap_to_grid, py_round_div.
  destruct (Z.eqb_spec (- q) 0); [lia |].
  destruct (Z.ltb_spec (- q) 0); [| lia].
  cbn [bind]. rewrite Z.opp_involutive, !round_half_even_opp by assumption.
  f_equal. f_equal; lia.
Qed.

Lemma snap_to_grid_negative_grid_witness :
  snap_to_grid (mkCell 250 100 370 140) (- 20) = snap_to_grid (mkCell 250 100 370 140) 20.
Proof. apply (snap_to_grid_negative_grid (mkCell 250 100 370 140) 20). reflexivity. Defined.

(** ** Empty input and a zero grid size *)

Lemma snap_to_grid_nonzero (r : Cell) (q : Z) :
  q <> 0 -> exists r', snap_to_grid r q = Ok r'.
Proof.
  intros Hq. unfold snap_to_grid, py_round_div.
  destruct (Z.eqb_spec q 0); [contradiction |].
  destruct (q <? 0); simpl; eauto.
Qed.

Lemma while_loop_only_runs_out_of_fuel (fuel : nat) (bd : Boundary) (q : Z) (i : nat)
    (orig cell : Cell) (seen : list (Cell * Direction)) (n : nat) (ws : list Cell)
    (e : exn) :
  while_loop fuel bd q i orig cell seen n ws = Err e -> e = OutOfFuel.
Proof.
  revert cell seen n ws.
  induction fuel as [|fuel IH]; intros cell seen n ws H.
  - rewrite while_loop_O in H. destruct (loop_condition bd cell ws); congruence.
  - rewrite while_loop_S in H.
    destruct (loop_condition bd cell ws); [| discriminate].
    destruct (compute_displacement cell bd ws q) as [d [v|]]; [| discriminate].
    destruct (bool_decide ((cell, d) ∈ seen)); [discriminate |].
    destruct (is_inside_block (move cell d v) bd); [eauto | discriminate].
Qed.

Lemma for_enumerate_only_runs_out_of_fuel (fuel : nat) (bd : Boundary) (q : Z)
    (idx : list nat) (ws : list Cell) (e : exn) :
  for_enumerate fuel bd q idx ws = Err e -> e = OutOfFuel.
Proof.
  revert ws. induction idx as [|i idx IH]; intros ws H; simpl in H; [discriminate |].
  destruct (resolve_cell fuel bd q i ws) as [r|e'] eqn:Hr; simpl in H.
  - destruct (for_enumerate fuel bd q idx (fst r)) as [r'|e'] eqn:Hf; simpl in H;
      [discriminate |].
    inversion H; subst. eapply IH; eassumption.
  - inversion H; subst. unfold resolve_cell in Hr.
    destruct (ws !! i); [| discriminate].
    eapply while_loop_only_runs_out_of_fuel; eassumption.
Qed.

(** X4. [resolve_overlaps] raises [ZeroDivisionError] exactly when the grid
    size is zero and the list is not empty; it does so in the snapping
    step, whatever the boundary.  On the empty list it returns the empty
    list for every grid size, zero included. *)
Theorem resolve_overlaps_zero_division (fuel : nat) (cells : list Cell)
    (bd : Boundary) (q : Z) :
  (resolve_overlaps fuel cells bd q = Err ZeroDivisionError <-> q = 0 /\ cells <> []) /\
  resolve_overlaps fuel [] bd q = Ok [].
Proof.
  split; [| reflexivity]. split.
  - intros H. unfold resolve_overlaps, resolve_run in H.
    destruct (snap_all cells q) as [snapped|e] eqn:Hs; simpl in H.
    + destruct (for_enumerate fuel bd q (seq 0 (length snapped)) snapped)
        as [r|e] eqn:Hf; simpl in H; [discriminate |].
      inversion H; subst.
      apply for_enumerate_only_runs_out_of_fuel in Hf. discriminate.
    + destruct (Z.eq_dec q 0) as [->|Hq].
      * split; [reflexivity |]. intros ->. discriminate.
      * destruct (mapM_total (fun cell => snap_to_grid cell q) cells) as [l Hl];
          [intros a; apply snap_to_grid_nonzero; assumption |].
        unfold snap_all in Hs. congruence.
  - intros [-> Hne]. destruct cells as [|c cells]; [contradiction | reflexivity].
Qed.

(** ** What a proposed move does *)

Lemma finite_cost_from_neighbour (cell : Cell) (bd : Boundary) (ws : list Cell)
    (q : Z) (d : Direction) (v : Z) :
  compute_displacement cell bd ws q = (d, Fin v) ->
  exists o, o ∈ ws /\ o <> cell /\ intersects cell o = true /\
            v = separation d cell o + q.
Proof.
  rewrite compute_displacement_eq_spec. unfold displacement_spec.
  intros H. inversion H as [[Hd Hc]]. clear H Hd.
  set (d' := first_minimal _) in *. clearbody d'.
  unfold direction_cost in Hc.
  destruct (minimum _) as [m|] eqn:Hm; [| discriminate].
  destruct (leading_edge_inside cell d' m); [| discriminate].
  inversion Hc; subst m.
  apply minimum_Fin in Hm as [Hin _].
  apply in_map_iff in Hin as (o & Hv & Ho).
  apply filter_In in Ho as [Ho Hf]. apply andb_true_iff in Hf as [Hne Hi].
  exists o. split; [apply list_elem_of_In; assumption |].
  split; [| auto].
  unfold cell_neqb in Hne. intros ->.
  rewrite bool_decide_eq_true_2 in Hne by reflexivity. discriminate.
Qed.

(** X5. When [compute_displacement] returns a finite cost for a positive
    grid size, the cost is at least one grid size, and moving the cell by it
    in the returned direction separates the cell from one of the
    rectangles it intersected, leaving a gap of exactly one grid size
    between the two along that axis. *)
Theorem proposed_move_clears_a_neighbour (cell : Cell) (bd : Boundary)
    (ws : list Cell) (q : Z) (d : Direction) (v : Z) :
  0 < q ->
  compute_displacement cell bd ws q = (d, Fin v) ->
  q <= v /\
  exists o, o ∈ ws /\ o <> cell /\ intersects cell o = true /\
    intersects (move cell d v) o = false /\
    separation d (move cell d v) o = - q.
Proof.
  intros Hq H. split; [apply (compute_displacement_finite _ _ _ _ _ _ H) |].
  destruct (finite_cost_from_neighbour _ _ _ _ _ _ H) as (o & Ho & Hne & Hi & Hv).
  exists o. repeat (split; [assumption |]).
  unfold intersects. subst v.
  destruct d; simpl;
    repeat match goal with
           | |- context [?x <=? ?y] => destruct (Z.leb_spec x y)
           end; simpl; split; first [reflexivity | lia].
Qed.

Lemma proposed_move_clears_a_neighbour_witness :
  GRID_HEIGHT <= 20 /\
  exists o, o ∈ [mkCell 40 40 140 80; mkCell 140 60 260 120] /\
    o <> mkCell 40 40 140 80 /\ intersects (mkCell 40 40 140 80) o = true /\
    intersects (move (mkCell 40 40 140 80) Left 20) o = false /\
    separation Left (move (mkCell 40 40 140 80) Left 20) o = - GRID_HEIGHT.
Proof.
  apply (proposed_move_clears_a_neighbour (mkCell 40 40 140 80) block_boundary
           [mkCell 40 40 140 80; mkCell 140 60 260 120] GRID_HEIGHT Left 20);
    reflexivity.
Defined.

(** X6. [compute_displacement] never proposes to move a cell that lies in
    the reference extent out of it: for a grid size that is not negative,
    the position a finite cost leads to is again inside [0,1000] x
    [0,2000]. *)
Theorem proposed_move_stays_in_extent (cell : Cell) (bd : Boundary)
    (ws : list Cell) (q : Z) (d : Direction) (v : Z) :
  0 <= q ->
  in_extent cell = true ->
  compute_displacement cell bd ws q = (d, Fin v) ->
  in_extent (move cell d v) = true.
Proof.
  intros Hq Hin H.
  destruct (compute_displacement_finite _ _ _ _ _ _ H) as [Hv He].
  unfold in_extent in *. rewrite !andb_true_iff, !Z.leb_le in *.
  destruct d; simpl in *; apply Z.leb_le in He; lia.
Qed.

Lemma proposed_move_stays_in_extent_witness :
  in_extent (move (mkCell 40 40 140 80) Left 20) = true.
Proof.
  apply (proposed_move_stays_in_extent (mkCell 40 40 140 80) block_boundary
           [mkCell 40 40 140 80; mkCell 140 60 260 120] GRID_HEIGHT Left 20);
    [unfold GRID_HEIGHT; lia | reflexivity | reflexivity].
Defined.

(** ** The answer depends on the rectangles present, not on their order *)

Lemma minimum_same_elements (l l' : list Z) :
  (forall z, In z l <-> In z l') -> minimum l = minimum l'.
Proof.
  intros H.
  destruct (minimum l) as [m|] eqn:E, (minimum l') as [m'|] eqn:E'; try reflexivity.
  - apply minimum_Fin in E as [Hi Hl]. apply minimum_Fin in E' as [Hi' Hl'].
    f_equal. apply Z.le_antisymm; [apply Hl | apply Hl']; apply H; assumption.
  - apply minimum_Fin in E as [Hi _]. apply minimum_Inf in E'. subst l'.
    apply H in Hi. destruct Hi.
  - apply minimum_Fin in E' as [Hi _]. apply minimum_Inf in E. subst l.
    apply H in Hi. destruct Hi.
Qed.

(** X7. [compute_displacement] depends only on which rectangles the list
    holds: two lists with the same elements, in any order and with any
    number of repetitions, give the same direction and the same cost. *)
Theorem compute_displacement_same_elements (cell : Cell) (bd : Boundary)
    (ws ws' : list Cell) (q : Z) :
  (forall o, o ∈ ws <-> o ∈ ws') ->
  compute_displacement cell bd ws q = compute_displacement cell bd ws' q.
Proof.
  intros H. rewrite !compute_displacement_eq_spec.
  assert (E : forall d, direction_cost leading_edge_inside cell ws q d =
                        direction_cost leading_edge_inside cell ws' q d).
  { intros d. unfold direction_cost.
    rewrite (minimum_same_elements
               (map (fun other => separation d cell other + q) (intersecting_others cell ws))
               (map (fun other => separation d cell other + q) (intersecting_others cell ws')));
      [reflexivity |].
    intros z. rewrite !in_map_iff. unfold intersecting_others.
    split; intros (o & Hz & Ho); exists o; (split; [assumption |]);
      apply filter_In in Ho as [Ho Hf]; apply filter_In; (split; [| assumption]);
      apply list_elem_of_In; apply H; apply list_elem_of_In; assumption. }
  unfold displacement_spec, first_minimal, direction_order. simpl.
  rewrite !E. reflexivity.
Qed.

Lemma compute_displacement_same_elements_witness :
  compute_displacement tall_b block_boundary [tall_a; tall_b; tall_c] GRID_HEIGHT =
  compute_displacement tall_b block_boundary [tall_c; tall_c; tall_b; tall_a] GRID_HEIGHT.
Proof.
  apply (compute_displacement_same_elements tall_b block_boundary
           [tall_a; tall_b; tall_c] [tall_c; tall_c; tall_b; tall_a] GRID_HEIGHT).
  intros o. rewrite !list_elem_of_In. simpl. tauto.
Defined.

(** ** Rectangles are only translated *)

Lemma snap_to_grid_translates (r r' : Cell) (q : Z) :
  snap_to_grid r q = Ok r' -> exists dx dy, r' = translate r dx dy.
Proof.
  unfold snap_to_grid. intros H.
  apply bind_Ok_inv in H as (rx & _ & H).
  apply bind_Ok_inv in H as (ry & _ & H).
  inversion H; subst. eauto.
Qed.

Lemma translate_translate (c : Cell) (a b a' b' : Z) :
  translate (translate c a b) a' b' = translate c (a + a') (b + b').
Proof. unfold translate; simpl. f_equal; lia. Qed.

Lemma move_translates (c : Cell) (d : Direction) (v : Z) :
  exists dx dy, move c d v = translate c dx dy.
Proof. destruct d; simpl; eauto. Qed.

Lemma while_loop_translates (fuel : nat) (bd : Boundary) (q : Z) (i : nat)
    (cell0 : Cell) (ws0 : list Cell) (r : list Cell * Trace) :
  ws0 !! i = Some cell0 ->
  while_loop fuel bd q i cell0 cell0 [] 0 ws0 = Ok r ->
  exists dx dy, fst r !! i = Some (translate cell0 dx dy).
Proof.
  intros H0 Hrun.
  assert (Hid : cell0 = translate cell0 0 0).
  { destruct cell0; unfold translate; simpl. f_equal; lia. }
  eapply (while_loop_rule bd q i cell0
            (fun cell _ _ ws =>
               ws !! i = Some cell /\ exists dx dy, cell = translate cell0 dx dy)
            (fun ws' _ => exists dx dy, ws' !! i = Some (translate cell0 dx dy)));
    [ .. | | exact Hrun].
  - intros cell seen n ws (Hc & dx & dy & ->) _. eauto.
  - intros cell seen n ws d (Hc & dx & dy & ->) _ _. eauto.
  - intros cell seen n ws d v (Hc & _) _ _ _.
    exists 0, 0. rewrite <- Hid.
    apply list_lookup_insert_eq. eapply lookup_lt_Some; eassumption.
  - intros cell seen n ws d v (Hc & _) _ _ _ _.
    exists 0, 0. rewrite <- Hid.
    apply list_lookup_insert_eq. eapply lookup_lt_Some; eassumption.
  - intros cell seen n ws d v (Hc & dx & dy & ->) _ _ _ _.
    split; [apply list_lookup_insert_eq; eapply lookup_lt_Some; eassumption |].
    destruct (move_translates (translate cell0 dx dy) d v) as (a & b & ->).
    rewrite translate_translate. eauto.
  - split; [assumption | exists 0, 0; assumption].
Qed.

(** X8. [resolve_overlaps] returns as many rectangles as it was given, in the
    same order, and each one is a translation of the input rectangle at the
    same index: no rectangle is dropped, added, resized or swapped. *)
Theorem resolve_overlaps_translates_each_cell (fuel : nat) (cells : list Cell)
    (bd : Boundary) (q : Z) (out : list Cell) :
  resolve_overlaps fuel cells bd q = Ok out ->
  length out = length cells /\
  forall i c, cells !! i = Some c ->
    exists dx dy, out !! i = Some (translate c dx dy).
Proof.
  intros Hres.
  destruct (resolve_overlaps_inv _ _ _ _ _ Hres) as [log Hrun].
  destruct (resolve_run_inv _ _ _ _ _ _ Hrun) as (snapped & Hs & _ & Hl0 & Hl1 & _).
  split; [congruence |].
  intros i c Hc.
  destruct (lookup_lt_is_Some_2 snapped i) as [s Hsi];
    [apply lookup_lt_Some in Hc; lia |].
  destruct (mapM_Ok_lookup _ _ _ Hs) as [_ Hlk].
  destruct (Hlk i s Hsi) as (c' & Hc' & Hsnap).
  rewrite Hc in Hc'. inversion Hc'; subst c'; clear Hc'.
  destruct (snap_to_grid_translates _ _ _ Hsnap) as (a & b & ->).
  destruct (resolve_run_at _ _ _ _ _ _ _ _ _ Hrun Hs Hsi) as (t & _ & Hwi & Hr & _ & _).
  unfold resolve_cell in Hr. rewrite Hwi in Hr.
  destruct (while_loop_translates _ _ _ _ _ _ _ Hwi Hr) as (dx & dy & Hfin).
  simpl in Hfin. rewrite working_set_final in Hfin
    by (try assumption; apply lookup_lt_Some in Hsi; lia).
  rewrite translate_translate in Hfin. eauto.
Qed.

Lemma resolve_overlaps_translates_each_cell_witness :
  length (fst tall_run) = length tall_cells /\
  forall i c, tall_cells !! i = Some c ->
    exists dx dy, fst tall_run !! i = Some (translate c dx dy).
Proof.
  apply (resolve_overlaps_translates_each_cell 10 tall_cells block_boundary GRID_HEIGHT
           (fst tall_run)).
  vm_compute. reflexivity.
Defined.

(** ** A legal placement is a fixed point *)

Lemma snap_to_grid_on_grid (c : Cell) (q : Z) :
  0 < q -> on_grid c q -> snap_to_grid c q = Ok c.
Proof.
  intros Hq [[k Hk] [l Hl]]. rewrite snap_to_grid_positive by assumption.
  rewrite Hk, Hl, !round_half_even_multiple by assumption.
  destruct c as [x1 y1 x2 y2]; unfold translate; simpl in *. subst.
  f_equal. f_equal; lia.
Qed.

Lemma snap_all_on_grid (cells : list Cell) (q : Z) :
  0 < q -> (forall c, c ∈ cells -> on_grid c q) -> snap_all cells q = Ok cells.
Proof.
  intros Hq. unfold snap_all. induction cells as [|c cells IH]; intros H; simpl.
  - reflexivity.
  - rewrite snap_to_grid_on_grid by (try assumption; apply H; left).
    simpl. rewrite IH by (intros c' Hc'; apply H; right; assumption).
    reflexivity.
Qed.

Lemma for_enumerate_clear (fuel : nat) (bd : Boundary) (q : Z) (idx : list nat)
    (ws : list Cell) :
  pairwise_clear ws ->
  exists log, for_enumerate (S fuel) bd q idx ws = Ok (ws, log).
Proof.
  intros Hclear. induction idx as [|i idx [log IH]]; simpl.
  - eauto.
  - assert (exists t, resolve_cell (S fuel) bd q i ws = Ok (ws, t)) as [t Ht].
    { destruct (ws !! i) as [c|] eqn:Hc.
      - eexists. apply (resolve_cell_overlap_free fuel bd q i ws c Hc).
        apply has_overlap_false. intros o Ho.
        destruct (Hclear c o) as [->|Hn]; auto.
        eapply list_elem_of_lookup_2; eassumption.
      - unfold resolve_cell. rewrite Hc. eauto. }
    rewrite Ht. simpl. rewrite IH. simpl. eauto.
Qed.

(** X9. A placement that needs no work is returned as it is: when every
    lower-left corner is on the grid and no two rectangles intersect (unless
    they are equal), [resolve_overlaps] returns the input positions, with
    one unit of fuel.  This holds whether or not the rectangles are inside
    the boundary. *)
Theorem clear_placement_is_returned_unchanged (fuel : nat) (cells : list Cell)
    (bd : Boundary) (q : Z) :
  0 < q ->
  (forall c, c ∈ cells -> on_grid c q) ->
  pairwise_clear cells ->
  resolve_overlaps (S fuel) cells bd q = Ok cells.
Proof.
  intros Hq Hgrid Hclear. unfold resolve_overlaps, resolve_run.
  rewrite snap_all_on_grid by assumption. simpl.
  destruct (for_enumerate_clear fuel bd q (seq 0 (length cells)) cells Hclear)
    as [log ->].
  reflexivity.
Qed.

Lemma clear_placement_is_returned_unchanged_witness :
  resolve_overlaps 1 [mkCell 0 0 100 40; mkCell 120 0 200 40; strip_cell]
    block_boundary GRID_HEIGHT
  = Ok [mkCell 0 0 100 40; mkCell 120 0 200 40; strip_cell].
Proof.
  apply (clear_placement_is_returned_unchanged 0
           [mkCell 0 0 100 40; mkCell 120 0 200 40; strip_cell]
           block_boundary GRID_HEIGHT).
  - reflexivity.
  - intros c Hc. apply list_elem_of_In in Hc. simpl in Hc.
    destruct Hc as [<-|[<-|[<-|[]]]]; split; simpl;
      [exists 0 | exists 0 | exists 6 | exists 0 | exists 2 | exists 55]; reflexivity.
  - intros a b Ha Hb. apply list_elem_of_In in Ha, Hb. simpl in Ha, Hb.
    destruct Ha as [<-|[<-|[<-|[]]]], Hb as [<-|[<-|[<-|[]]]];
      first [left; reflexivity | right; reflexivity].
Defined.

(** ** One pass, in index order *)

(** X10. The engine makes a single pass.  When the loop of the rectangle at
    index [i] starts, the working list holds the final positions of the
    rectangles before [i] and the snapped positions of the rectangles from
    [i] on; when it ends, only the entry at index [i] may have changed, to
    its final position. *)
Theorem resolve_overlaps_is_single_pass (fuel : nat) (cells : list Cell)
    (bd : Boundary) (q : Z) (snapped out : list Cell) (log : list Trace)
    (i : nat) (c : Cell) :
  resolve_run fuel cells bd q = Ok (out, log) ->
  snap_all cells q = Ok snapped ->
  snapped !! i = Some c ->
  exists t,
    log !! i = Some t /\
    resolve_cell fuel bd q i (take i out ++ drop i snapped)
      = Ok (take (S i) out ++ drop (S i) snapped, t).
Proof.
  intros Hrun Hs Hc.
  destruct (resolve_run_at _ _ _ _ _ _ _ _ _ Hrun Hs Hc) as (t & Ht & _ & Hr & _).
  exists t. split; assumption.
Qed.

Lemma resolve_overlaps_is_single_pass_witness :
  exists t,
    snd tall_run !! 1%nat = Some t /\
    resolve_cell 10 block_boundary GRID_HEIGHT 1
      (take 1 (fst tall_run) ++ drop 1 tall_cells)
      = Ok (take 2 (fst tall_run) ++ drop 2 tall_cells, t).
Proof.
  apply (resolve_overlaps_is_single_pass 10 tall_cells block_boundary GRID_HEIGHT
           tall_cells (fst tall_run) (snd tall_run) 1 tall_b);
    vm_compute; reflexivity.
Defined.

(** ** The movement report *)

Lemma lookup_combine {A B : Type} (l1 : list A) (l2 : list B) (k : nat) (a : A) (b : B) :
  combine l1 l2 !! k = Some (a, b) <-> l1 !! k = Some a /\ l2 !! k = Some b.
Proof.
  revert l2 k. induction l1 as [|x l1 IH]; intros [|y l2] k; simpl;
    try (split; [discriminate | intros [H1 H2]; destruct k; discriminate]).
  destruct k as [|k]; simpl.
  - split; [intros H; inversion H; auto | intros [H1 H2]; congruence].
  - apply IH.
Qed.

Lemma enumerate_zip_lookup (l1 l2 : list Cell) (k : nat) (p : nat * (Cell * Cell)) :
  enumerate_zip 0 l1 l2 !! k = Some p <->
  fst p = k /\ l1 !! k = Some (fst (snd p)) /\ l2 !! k = Some (snd (snd p)).
Proof.
  unfold enumerate_zip. destruct p as [i [o n]]. simpl.
  rewrite lookup_combine, lookup_combine. split.
  - intros [Hs Hz]. apply lookup_seq in Hs as [-> _]. tauto.
  - intros (-> & H1 & H2). split; [| tauto].
    apply lookup_seq. split; [reflexivity |].
    apply (lookup_lt_Some (combine l1 l2) k (o, n)). apply lookup_combine. tauto.
Qed.

Section MovementReport.
Context {D : Type}.
Variable compute_distance : Cell -> Cell -> D.
Variable gtb : D -> D -> bool.
Variable zero : D.

Hypothesis gtb_irrefl : forall a, gtb a a = false.
Hypothesis gtb_trans : forall a b c, gtb a b = true -> gtb b c = true -> gtb a c = true.
Hypothesis gtb_cotrans : forall a b c, gtb a c = true -> gtb a b = true \/ gtb b c = true.

Lemma summarize_step_inv (done : list (nat * (Cell * Cell))) (s : Summary)
    (x : nat * (Cell * Cell)) :
  summary_inv compute_distance gtb zero done s ->
  summary_inv compute_distance gtb zero (done ++ [x])
    (summarize_step compute_distance gtb s x).
Proof.
  intros [Hm Hcase]. unfold summarize_step.
  fold (pair_distance compute_distance x).
  set (dx := pair_distance compute_distance x) in *.
  assert (Hbelow : forall m, gtb dx m = true ->
            (forall p, In p done -> gtb (pair_distance compute_distance p) m = false) ->
            (forall p', In p' (done ++ [x]) ->
               gtb (pair_distance compute_distance p') dx = false) /\
            (forall k' p', (k' < length done)%nat -> (done ++ [x]) !! k' = Some p' ->
               gtb dx (pair_distance compute_distance p') = true)).
  { intros m Hgt Hall. split.
    - intros p' Hp'. apply in_app_iff in Hp' as [Hp'|[<-|[]]]; [| apply gtb_irrefl].
      destruct (gtb (pair_distance compute_distance p') dx) eqn:E; [| reflexivity].
      rewrite <- (Hall p' Hp'). symmetry. eapply gtb_trans; eassumption.
    - intros k' p' Hk' Hp'. rewrite lookup_app_l in Hp' by assumption.
      destruct (gtb_cotrans dx (pair_distance compute_distance p') m Hgt) as [H|H];
        [assumption |].
      rewrite Hall in H; [discriminate |].
      apply list_elem_of_In. eapply list_elem_of_lookup_2; eassumption. }
  assert (Hlast : (done ++ [x]) !! length done = Some x).
  { rewrite lookup_app_r by lia. rewrite Nat.sub_diag. reflexivity. }
  destruct (gtb dx (max_movement s)) eqn:Hgt; split; simpl;
    try (rewrite Hm, map_app; reflexivity).
  - right. exists (length done), x.
    destruct Hcase as [(Hi & Hz & Hall)|(k & p & Hk & Hi & Hmax & Hpos & Hall & Hbefore)].
    + rewrite Hz in Hgt. destruct (Hbelow zero Hgt Hall) as [A B]. auto 10.
    + rewrite Hmax in Hgt.
      destruct (Hbelow (pair_distance compute_distance p) Hgt Hall) as [A B].
      repeat split; auto. eapply gtb_trans; eassumption.
  - destruct Hcase as [(Hi & Hz & Hall)|(k & p & Hk & Hi & Hmax & Hpos & Hall & Hbefore)].
    + left. repeat split; auto.
      intros p' Hp'. apply in_app_iff in Hp' as [Hp'|[<-|[]]]; [auto |].
      rewrite <- Hz. assumption.
    + right. exists k, p.
      pose proof (lookup_lt_Some _ _ _ Hk) as Hlt.
      split; [rewrite lookup_app_l by assumption; assumption |].
      repeat split; auto.
      * intros p' Hp'. apply in_app_iff in Hp' as [Hp'|[<-|[]]]; [auto |].
        rewrite <- Hmax. assumption.
      * intros k' p' Hk' Hp'. rewrite lookup_app_l in Hp' by lia. eauto.
Qed.

Lemma summarize_fold_inv (ps done : list (nat * (Cell * Cell))) (s : Summary) :
  summary_inv compute_distance gtb zero done s ->
  summary_inv compute_distance gtb zero (done ++ ps)
    (fold_left (summarize_step compute_distance gtb) ps s).
Proof.
  revert done s. induction ps as [|x ps IH]; intros done s H; simpl.
  - rewrite app_nil_r. assumption.
  - replace (done ++ x :: ps) with ((done ++ [x]) ++ ps)
      by (rewrite <- app_assoc; reflexivity).
    apply IH. apply summarize_step_inv. assumption.
Qed.

(** X11. What [summarize_movements] reports, for any distance whose [>] is a
    strict weak order.  It lists one movement per pair of [zip], so as many
    as the shorter list has.  The index reported is -1 exactly when no
    displacement exceeds zero; otherwise it is the first index that attains
    the largest displacement, and the maximum reported is the displacement
    at that index. *)
Theorem summarize_movements_reports_first_maximum (initial_cells final_cells : list Cell) :
  let s := summarize_movements compute_distance gtb zero initial_cells final_cells in
  length (movements s) = Nat.min (length initial_cells) (length final_cells) /\
  (max_cell_idx s = -1 <->
   forall i o n, initial_cells !! i = Some o -> final_cells !! i = Some n ->
     gtb (compute_distance o n) zero = false) /\
  (max_cell_idx s <> -1 ->
   exists i o n,
     max_cell_idx s = Z.of_nat i /\
     initial_cells !! i = Some o /\ final_cells !! i = Some n /\
     max_movement s = compute_distance o n /\
     gtb (compute_distance o n) zero = true /\
     (forall j o' n', initial_cells !! j = Some o' -> final_cells !! j = Some n' ->
        gtb (compute_distance o' n') (compute_distance o n) = false) /\
     (forall j o' n', (j < i)%nat ->
        initial_cells !! j = Some o' -> final_cells !! j = Some n' ->
        gtb (compute_distance o n) (compute_distance o' n') = true)).
Proof.
  intros s.
  assert (Hinv : summary_inv compute_distance gtb zero
                   (enumerate_zip 0 initial_cells final_cells) s).
  { apply (summarize_fold_inv _ [] (mkSummary [] zero (-1))).
    split; [reflexivity |]. left. repeat split. intros p []. }
  destruct Hinv as [Hm Hcase].
  assert (Hpair : forall j o' n', initial_cells !! j = Some o' ->
            final_cells !! j = Some n' ->
            enumerate_zip 0 initial_cells final_cells !! j = Some (j, (o', n'))).
  { intros j o' n' H1 H2. apply enumerate_zip_lookup. simpl. auto. }
  split.
  { rewrite Hm, length_map. unfold enumerate_zip.
    rewrite length_combine, length_seq, length_combine. lia. }
  destruct Hcase as [(Hi & Hz & Hall)|(k & p & Hk & Hi & Hmax & Hpos & Hall & Hbefore)].
  - split; [| intros Hne; contradiction].
    split; [| intros _; assumption].
    intros _ i o n H1 H2.
    apply (Hall (i, (o, n))). apply list_elem_of_In.
    eapply list_elem_of_lookup_2. apply Hpair; eassumption.
  - apply enumerate_zip_lookup in Hk as Hk'. destruct Hk' as (Hfst & H1 & H2).
    destruct p as [i [o n]]. simpl in *. subst i.
    unfold pair_distance in *. simpl in *.
    split.
    + split; [intros E; rewrite E in Hi; lia |].
      intros Hno. rewrite (Hno k o n H1 H2) in Hpos. discriminate.
    + intros _. exists k, o, n. repeat split; auto.
      * intros j o' n' Ho' Hn'.
        apply (Hall (j, (o', n'))). apply list_elem_of_In.
        eapply list_elem_of_lookup_2. apply Hpair; eassumption.
      * intros j o' n' Hj Ho' Hn'.
        apply (Hbefore j (j, (o', n')) Hj). apply Hpair; assumption.
Qed.
End MovementReport.

Lemma Zgtb_irrefl (a : Z) : (a >? a) = false.
Proof. rewrite Z.gtb_ltb. apply Z.ltb_irrefl. Qed.

Lemma Zgtb_trans (a b c : Z) : (a >? b) = true -> (b >? c) = true -> (a >? c) = true.
Proof. rewrite !Z.gtb_ltb, !Z.ltb_lt. lia. Qed.

Lemma Zgtb_cotrans (a b c : Z) :
  (a >? c) = true -> (a >? b) = true \/ (b >? c) = true.
Proof. rewrite !Z.gtb_ltb, !Z.ltb_lt. lia. Qed.

Lemma summarize_movements_reports_first_maximum_witness :
  let s := summarize_movements centre_distance2 Z.gtb 0 tall_cells (fst tall_run) in
  length (movements s) = Nat.min (length tall_cells) (length (fst tall_run)) /\
  (max_cell_idx s = -1 <->
   forall i o n, tall_cells !! i = Some o -> fst tall_run !! i = Some n ->
     (centre_distance2 o n >? 0) = false) /\
  (max_cell_idx s <> -1 ->
   exists i o n,
     max_cell_idx s = Z.of_nat i /\
     tall_cells !! i = Some o /\ fst tall_run !! i = Some n /\
     max_movement s = centre_distance2 o n /\
     (centre_distance2 o n >? 0) = true /\
     (forall j o' n', tall_cells !! j = Some o' -> fst tall_run !! j = Some n' ->
        (centre_distance2 o' n' >? centre_distance2 o n) = false) /\
     (forall j o' n', (j < i)%nat ->
        tall_cells !! j = Some o' -> fst tall_run !! j = Some n' ->
        (centre_distance2 o n >? centre_distance2 o' n') = true)).
Proof.
  apply (summarize_movements_reports_first_maximum centre_distance2 Z.gtb 0
           Zgtb_irrefl Zgtb_trans Zgtb_cotrans tall_cells (fst tall_run)).
Defined.

(** ** Snapping first changes nothing *)

Lemma snap_all_idempotent (cells snapped : list Cell) (q : Z) :
  0 < q -> snap_all cells q = Ok snapped -> snap_all snapped q = Ok snapped.
Proof.
  intros Hq Hs. apply snap_all_on_grid; [assumption |].
  intros c Hc. apply list_elem_of_lookup_1 in Hc as [i Hi].
  destruct (mapM_Ok_lookup _ _ _ Hs) as [_ Hlk].
  destruct (Hlk i c Hi) as (c0 & _ & Hsnap).
  destruct (snap_to_grid_corner _ _ _ Hq Hsnap) as (Hx & Hy & _).
  split; [rewrite Hx | rewrite Hy]; apply Z.divide_factor_r.
Qed.

(** X12. Snapping the rectangles before the call changes nothing: for a
    positive grid size, [resolve_overlaps] on the snapped list returns what
    it returns on the list itself, with the same fuel. *)
Theorem resolve_overlaps_of_snapped_input (fuel : nat) (cells snapped : list Cell)
    (bd : Boundary) (q : Z) :
  0 < q ->
  snap_all cells q = Ok snapped ->
  resolve_overlaps fuel snapped bd q = resolve_overlaps fuel cells bd q.
Proof.
  intros Hq Hs. unfold resolve_overlaps, resolve_run.
  rewrite (snap_all_idempotent _ _ _ Hq Hs), Hs. reflexivity.
Qed.

Lemma resolve_overlaps_of_snapped_input_witness :
  resolve_overlaps 10 fixture_snapped block_boundary GRID_HEIGHT =
  resolve_overlaps 10 standard_cells block_boundary GRID_HEIGHT.
Proof.
  apply (resolve_overlaps_of_snapped_input 10 standard_cells fixture_snapped
           block_boundary GRID_HEIGHT); vm_compute; reflexivity.
Defined.
